(** * prenomscope: accent and phonetic folding of given names

    A shallow embedding of the normalisation scripts
    ([preprocessing/process_data.py], [create_accent_agnostic_parquet.py],
    [create_similar_names_parquet.py], [create_name_variants_parquet.py])
    and of the part of the polars data-frame interface they call, with the
    properties of the folding functions proved over it. *)

From Stdlib Require Import String Ascii.
From Stdlib Require Import List NArith ZArith Bool Lia Arith Permutation.
Import ListNotations.
Local Open Scope N_scope.

(** ** Python strings

    A Python [str] is a sequence of Unicode code points. *)

Definition char := N.
Definition str := list char.

(** The code points of an ASCII literal. *)
Definition of_ascii (s : string) : str :=
  map N_of_ascii (list_ascii_of_string s).

Definition mem (c : char) (cs : str) : bool := existsb (N.eqb c) cs.

Fixpoint str_eqb (a b : str) : bool :=
  match a, b with
  | [], [] => true
  | x :: a', y :: b' => (x =? y) && str_eqb a' b'
  | _, _ => false
  end.

Module Unicode.

(** The simple lowercase mapping of the Unicode character database
    (version 14.0), as arithmetic progressions
    [(first, last, step, image of first)]: the code points
    [first, first + step, ..., last] map to
    [image, image + step, ...]. *)
Definition lower_ranges : list (N * N * N * N) :=
  [
    (0x41, 0x5A, 1, 0x61); (0xC0, 0xD6, 1, 0xE0); (0xD8, 0xDE, 1, 0xF8);
    (0x100, 0x12E, 2, 0x101); (0x132, 0x136, 2, 0x133);
    (0x139, 0x147, 2, 0x13A); (0x14A, 0x176, 2, 0x14B);
    (0x178, 0x178, 1, 0xFF); (0x179, 0x17D, 2, 0x17A);
    (0x181, 0x181, 1, 0x253); (0x182, 0x184, 2, 0x183);
    (0x186, 0x186, 1, 0x254); (0x187, 0x187, 1, 0x188);
    (0x189, 0x18A, 1, 0x256); (0x18B, 0x18B, 1, 0x18C);
    (0x18E, 0x18E, 1, 0x1DD); (0x18F, 0x18F, 1, 0x259);
    (0x190, 0x190, 1, 0x25B); (0x191, 0x191, 1, 0x192);
    (0x193, 0x193, 1, 0x260); (0x194, 0x194, 1, 0x263);
    (0x196, 0x196, 1, 0x269); (0x197, 0x197, 1, 0x268);
    (0x198, 0x198, 1, 0x199); (0x19C, 0x19C, 1, 0x26F);
    (0x19D, 0x19D, 1, 0x272); (0x19F, 0x19F, 1, 0x275);
    (0x1A0, 0x1A4, 2, 0x1A1); (0x1A6, 0x1A6, 1, 0x280);
    (0x1A7, 0x1A7, 1, 0x1A8); (0x1A9, 0x1A9, 1, 0x283);
    (0x1AC, 0x1AC, 1, 0x1AD); (0x1AE, 0x1AE, 1, 0x288);
    (0x1AF, 0x1AF, 1, 0x1B0); (0x1B1, 0x1B2, 1, 0x28A);
    (0x1B3, 0x1B5, 2, 0x1B4); (0x1B7, 0x1B7, 1, 0x292);
    (0x1B8, 0x1B8, 1, 0x1B9); (0x1BC, 0x1BC, 1, 0x1BD);
    (0x1C4, 0x1C4, 1, 0x1C6); (0x1C5, 0x1C5, 1, 0x1C6);
    (0x1C7, 0x1C7, 1, 0x1C9); (0x1C8, 0x1C8, 1, 0x1C9);
    (0x1CA, 0x1CA, 1, 0x1CC); (0x1CB, 0x1DB, 2, 0x1CC);
    (0x1DE, 0x1EE, 2, 0x1DF); (0x1F1, 0x1F1, 1, 0x1F3);
    (0x1F2, 0x1F4, 2, 0x1F3); (0x1F6, 0x1F6, 1, 0x195);
    (0x1F7, 0x1F7, 1, 0x1BF); (0x1F8, 0x21E, 2, 0x1F9);
    (0x220, 0x220, 1, 0x19E); (0x222, 0x232, 2, 0x223);
    (0x23A, 0x23A, 1, 0x2C65); (0x23B, 0x23B, 1, 0x23C);
    (0x23D, 0x23D, 1, 0x19A); (0x23E, 0x23E, 1, 0x2C66);
    (0x241, 0x241, 1, 0x242); (0x243, 0x243, 1, 0x180);
    (0x244, 0x244, 1, 0x289); (0x245, 0x245, 1, 0x28C);
    (0x246, 0x24E, 2, 0x247); (0x370, 0x372, 2, 0x371);
    (0x376, 0x376, 1, 0x377); (0x37F, 0x37F, 1, 0x3F3);
    (0x386, 0x386, 1, 0x3AC); (0x388, 0x38A, 1, 0x3AD);
    (0x38C, 0x38C, 1, 0x3CC); (0x38E, 0x38F, 1, 0x3CD);
    (0x391, 0x3A1, 1, 0x3B1); (0x3A3, 0x3AB, 1, 0x3C3);
    (0x3CF, 0x3CF, 1, 0x3D7); (0x3D8, 0x3EE, 2, 0x3D9);
    (0x3F4, 0x3F4, 1, 0x3B8); (0x3F7, 0x3F7, 1, 0x3F8);
    (0x3F9, 0x3F9, 1, 0x3F2); (0x3FA, 0x3FA, 1, 0x3FB);
    (0x3FD, 0x3FF, 1, 0x37B); (0x400, 0x40F, 1, 0x450);
    (0x410, 0x42F, 1, 0x430); (0x460, 0x480, 2, 0x461);
    (0x48A, 0x4BE, 2, 0x48B); (0x4C0, 0x4C0, 1, 0x4CF);
    (0x4C1, 0x4CD, 2, 0x4C2); (0x4D0, 0x52E, 2, 0x4D1);
    (0x531, 0x556, 1, 0x561); (0x10A0, 0x10C5, 1, 0x2D00);
    (0x10C7, 0x10C7, 1, 0x2D27); (0x10CD, 0x10CD, 1, 0x2D2D);
    (0x13A0, 0x13EF, 1, 0xAB70); (0x13F0, 0x13F5, 1, 0x13F8);
    (0x1C90, 0x1CBA, 1, 0x10D0); (0x1CBD, 0x1CBF, 1, 0x10FD);
    (0x1E00, 0x1E94, 2, 0x1E01); (0x1E9E, 0x1E9E, 1, 0xDF);
    (0x1EA0, 0x1EFE, 2, 0x1EA1); (0x1F08, 0x1F0F, 1, 0x1F00);
    (0x1F18, 0x1F1D, 1, 0x1F10); (0x1F28, 0x1F2F, 1, 0x1F20);
    (0x1F38, 0x1F3F, 1, 0x1F30); (0x1F48, 0x1F4D, 1, 0x1F40);
    (0x1F59, 0x1F5F, 2, 0x1F51); (0x1F68, 0x1F6F, 1, 0x1F60);
    (0x1F88, 0x1F8F, 1, 0x1F80); (0x1F98, 0x1F9F, 1, 0x1F90);
    (0x1FA8, 0x1FAF, 1, 0x1FA0); (0x1FB8, 0x1FB9, 1, 0x1FB0);
    (0x1FBA, 0x1FBB, 1, 0x1F70); (0x1FBC, 0x1FBC, 1, 0x1FB3);
    (0x1FC8, 0x1FCB, 1, 0x1F72); (0x1FCC, 0x1FCC, 1, 0x1FC3);
    (0x1FD8, 0x1FD9, 1, 0x1FD0); (0x1FDA, 0x1FDB, 1, 0x1F76);
    (0x1FE8, 0x1FE9, 1, 0x1FE0); (0x1FEA, 0x1FEB, 1, 0x1F7A);
    (0x1FEC, 0x1FEC, 1, 0x1FE5); (0x1FF8, 0x1FF9, 1, 0x1F78);
    (0x1FFA, 0x1FFB, 1, 0x1F7C); (0x1FFC, 0x1FFC, 1, 0x1FF3);
    (0x2126, 0x2126, 1, 0x3C9); (0x212A, 0x212A, 1, 0x6B);
    (0x212B, 0x212B, 1, 0xE5); (0x2132, 0x2132, 1, 0x214E);
    (0x2160, 0x216F, 1, 0x2170); (0x2183, 0x2183, 1, 0x2184);
    (0x24B6, 0x24CF, 1, 0x24D0); (0x2C00, 0x2C2F, 1, 0x2C30);
    (0x2C60, 0x2C60, 1, 0x2C61); (0x2C62, 0x2C62, 1, 0x26B);
    (0x2C63, 0x2C63, 1, 0x1D7D); (0x2C64, 0x2C64, 1, 0x27D);
    (0x2C67, 0x2C6B, 2, 0x2C68); (0x2C6D, 0x2C6D, 1, 0x251);
    (0x2C6E, 0x2C6E, 1, 0x271); (0x2C6F, 0x2C6F, 1, 0x250);
    (0x2C70, 0x2C70, 1, 0x252); (0x2C72, 0x2C72, 1, 0x2C73);
    (0x2C75, 0x2C75, 1, 0x2C76); (0x2C7E, 0x2C7F, 1, 0x23F);
    (0x2C80, 0x2CE2, 2, 0x2C81); (0x2CEB, 0x2CED, 2, 0x2CEC);
    (0x2CF2, 0x2CF2, 1, 0x2CF3); (0xA640, 0xA66C, 2, 0xA641);
    (0xA680, 0xA69A, 2, 0xA681); (0xA722, 0xA72E, 2, 0xA723);
    (0xA732, 0xA76E, 2, 0xA733); (0xA779, 0xA77B, 2, 0xA77A);
    (0xA77D, 0xA77D, 1, 0x1D79); (0xA77E, 0xA786, 2, 0xA77F);
    (0xA78B, 0xA78B, 1, 0xA78C); (0xA78D, 0xA78D, 1, 0x265);
    (0xA790, 0xA792, 2, 0xA791); (0xA796, 0xA7A8, 2, 0xA797);
    (0xA7AA, 0xA7AA, 1, 0x266); (0xA7AB, 0xA7AB, 1, 0x25C);
    (0xA7AC, 0xA7AC, 1, 0x261); (0xA7AD, 0xA7AD, 1, 0x26C);
    (0xA7AE, 0xA7AE, 1, 0x26A); (0xA7B0, 0xA7B0, 1, 0x29E);
    (0xA7B1, 0xA7B1, 1, 0x287); (0xA7B2, 0xA7B2, 1, 0x29D);
    (0xA7B3, 0xA7B3, 1, 0xAB53); (0xA7B4, 0xA7C2, 2, 0xA7B5);
    (0xA7C4, 0xA7C4, 1, 0xA794); (0xA7C5, 0xA7C5, 1, 0x282);
    (0xA7C6, 0xA7C6, 1, 0x1D8E); (0xA7C7, 0xA7C9, 2, 0xA7C8);
    (0xA7D0, 0xA7D0, 1, 0xA7D1); (0xA7D6, 0xA7D8, 2, 0xA7D7);
    (0xA7F5, 0xA7F5, 1, 0xA7F6); (0xFF21, 0xFF3A, 1, 0xFF41);
    (0x10400, 0x10427, 1, 0x10428); (0x104B0, 0x104D3, 1, 0x104D8);
    (0x10570, 0x1057A, 1, 0x10597); (0x1057C, 0x1058A, 1, 0x105A3);
    (0x1058C, 0x10592, 1, 0x105B3); (0x10594, 0x10595, 1, 0x105BB);
    (0x10C80, 0x10CB2, 1, 0x10CC0); (0x118A0, 0x118BF, 1, 0x118C0);
    (0x16E40, 0x16E5F, 1, 0x16E60); (0x1E900, 0x1E921, 1, 0x1E922)
  ].

Definition in_range (r : N * N * N * N) (c : char) : bool :=
  let '(lo, hi, step, _) := r in
  if lo <=? c then if c <=? hi then (c - lo) mod step =? 0 else false
  else false.

(** Lowercase of one code point.  U+0130 is the only code point whose
    lowercase is longer than one code point. *)
Definition lower_cp (c : char) : str :=
  if c =? 0x130 then [0x69; 0x307]
  else match find (fun r => in_range r c) lower_ranges with
       | Some (lo, _, _, img) => [img + (c - lo)]
       | None => [c]
       end.

(** The code points of one progression, and all the code points whose
    lowercase differs from them. *)
Definition range_elems (r : N * N * N * N) : list char :=
  let '(lo, hi, step, _) := r in
  map (fun k => lo + N.of_nat k * step)
      (seq 0 (S (N.to_nat ((hi - lo) / step)))).

Definition cased : list char := 0x130 :: flat_map range_elems lower_ranges.

(** [str.lower()].  CPython writes a capital sigma U+03A3 in word-final
    position as U+03C2; here it is always U+03C3. *)
Definition lower (s : str) : str := flat_map lower_cp s.

(** [str.isspace()] on one code point; the class [\s] of [re] on [str]
    patterns is the same set. *)
Definition isspace (c : char) : bool :=
  ((0x9 <=? c) && (c <=? 0xD)) || ((0x1C <=? c) && (c <=? 0x20))
  || (c =? 0x85) || (c =? 0xA0) || (c =? 0x1680)
  || ((0x2000 <=? c) && (c <=? 0x200A))
  || (c =? 0x2028) || (c =? 0x2029) || (c =? 0x202F) || (c =? 0x205F)
  || (c =? 0x3000).

End Unicode.

(** ** [str.strip] *)

Fixpoint lstrip (f : char -> bool) (s : str) : str :=
  match s with
  | [] => []
  | c :: t => if f c then lstrip f t else s
  end.

Definition rstrip (f : char -> bool) (s : str) : str :=
  rev (lstrip f (rev s)).

Definition strip_with (f : char -> bool) (s : str) : str :=
  rstrip f (lstrip f s).

(** [s.strip()] *)
Definition strip (s : str) : str := strip_with Unicode.isspace s.

(** [s.strip(chars)] *)
Definition strip_chars (chars : str) (s : str) : str :=
  strip_with (fun c => mem c chars) s.

(** ** The fragment of [re] the scripts use *)

Module Re.

Inductive pattern : Type :=
| Lit (w : str)          (** a literal word: [y], [ph], [h] *)
| Class (cs : str)       (** a character class [[...]] *)
| Alt (w1 w2 : str)      (** a group of two literal alternatives: [(ck|qu)] *)
| Repeat                 (** [(.)\1+] *)
| LitEnd (w : str)       (** a literal word anchored by [$]: [ard$], [ie$] *)
| Spaces                 (** [\s+] *)
| Plus (c : char).       (** [c+]: [-+] *)

Inductive template : Type :=
| Text (w : str)         (** a replacement without group references *)
| Group1.                (** the replacement [\1] *)

Fixpoint starts_with (w s : str) : bool :=
  match w, s with
  | [], _ => true
  | x :: w', y :: s' => (x =? y) && starts_with w' s'
  | _ :: _, [] => false
  end.

(** Number of leading characters of [s] that satisfy [f]. *)
Fixpoint run_length (f : char -> bool) (s : str) : nat :=
  match s with
  | c :: t => if f c then S (run_length f t) else O
  | [] => O
  end.

(** [$] matches at the end of the text and before a line feed that ends it. *)
Definition at_end (s : str) : bool :=
  match s with
  | [] => true
  | [c] => c =? 0xA
  | _ => false
  end.

(** The match of [p] that starts at the head of [s], if there is one: its
    length and the text of group 1.  [.] matches every character but the
    line feed; repetitions are greedy; the first alternative that matches
    wins. *)
Definition match_at (p : pattern) (s : str) : option (nat * str) :=
  match p with
  | Lit w => if starts_with w s then Some (length w, []) else None
  | Class cs =>
      match s with
      | c :: _ => if mem c cs then Some (1%nat, []) else None
      | [] => None
      end
  | Alt w1 w2 =>
      if starts_with w1 s then Some (length w1, w1)
      else if starts_with w2 s then Some (length w2, w2)
      else None
  | Repeat =>
      match s with
      | c :: rest =>
          if c =? 0xA then None
          else match run_length (N.eqb c) rest with
               | O => None
               | S k => Some (S (S k), [c])
               end
      | [] => None
      end
  | LitEnd w =>
      if starts_with w s && at_end (skipn (length w) s)
      then Some (length w, []) else None
  | Spaces =>
      match run_length Unicode.isspace s with
      | O => None
      | n => Some (n, [])
      end
  | Plus c =>
      match run_length (N.eqb c) s with
      | O => None
      | n => Some (n, [])
      end
  end.

Definition expand (t : template) (group1 : str) : str :=
  match t with
  | Text w => w
  | Group1 => group1
  end.

(** [re.sub]: scan from the left; where the pattern matches, write the
    replacement and resume after the match, elsewhere copy the character.
    [skip] counts the characters of the current match still to pass.  None
    of the patterns of the scripts matches the empty string. *)
Fixpoint sub_from (p : pattern) (t : template) (skip : nat) (s : str) : str :=
  match s with
  | [] => []
  | c :: rest =>
      match skip with
      | S k => sub_from p t k rest
      | O =>
          match match_at p s with
          | Some (S n, g) => expand t g ++ sub_from p t n rest
          | _ => c :: sub_from p t O rest
          end
      end
  end.

Definition sub (p : pattern) (t : template) (s : str) : str :=
  sub_from p t O s.

End Re.

(** ** Python values *)

(** The values a cell of a frame can hold; each of them has a truth
    value. *)
Inductive pyval : Type :=
| PyNone
| PyBool (b : bool)
| PyInt (z : Z)
| PyBytes (b : list N)
| PyStr (s : str).

(** Truth value of an object, as [not name] tests it. *)
Definition truthy (v : pyval) : bool :=
  match v with
  | PyNone => false
  | PyBool b => b
  | PyInt z => negb (z =? 0)%Z
  | PyBytes b => match b with [] => false | _ => true end
  | PyStr s => match s with [] => false | _ => true end
  end.

(** [isinstance(name, str)] *)
Definition isinstance_str (v : pyval) : bool :=
  match v with
  | PyStr _ => true
  | _ => false
  end.

(** ** Python objects

    The folding functions can be called with any object: a value as above,
    a float, a list, or another object.  Of an object that is not a string
    the guard [not name or not isinstance(name, str)] observes only its
    truth test, which returns a boolean or raises. *)
#[warnings="-register-all"]
Inductive pyobject : Type :=
| Value (v : pyval)
| PyFloat (bits : N)      (** a float, by its IEEE 754 binary64 bits *)
| PyList (items : list pyobject)
| PyOther (id : N) (truth : option bool).
                          (** another object (an array, a series, a
                              missing-value marker, ...): what its truth
                              test returns, [None] when it raises *)

(** [bool(obj)], which [not name] calls; [None] when it raises.  A float is
    false when it is zero of either sign, a list when it is empty. *)
Definition truth_value (o : pyobject) : option bool :=
  match o with
  | Value v => Some (truthy v)
  | PyFloat bits => Some (negb (N.land bits 0x7FFFFFFFFFFFFFFF =? 0))
  | PyList items => Some (match items with [] => false | _ => true end)
  | PyOther _ truth => truth
  end.

(** [isinstance(name, str)] *)
Definition is_str (o : pyobject) : bool :=
  match o with
  | Value v => isinstance_str v
  | _ => false
  end.

(** What a call does: it returns an object or raises. *)
Inductive outcome : Type :=
| Returns (o : pyobject)
| Raises.

Definition pyval_eq_dec (a b : pyval) : {a = b} + {a <> b}.
Proof.
  decide equality;
    first [ apply Bool.bool_dec | apply Z.eq_dec | apply (list_eq_dec N.eq_dec) ].
Defined.

(** ** The polars operations the scripts call

    A data frame is the list of its columns, in order; a column is its name
    and its cells, in row order; [PyNone] is the null cell.  An operation
    that raises returns [None]. *)

Module Polars.

Definition series := list pyval.
Definition dataframe := list (string * series).

(** [df.columns] *)
Definition columns (df : dataframe) : list string := map fst df.

(** [df.select(name)], which raises when there is no such column. *)
Fixpoint get_column (df : dataframe) (name : string) : option series :=
  match df with
  | [] => None
  | (n, s) :: rest =>
      if String.eqb n name then Some s else get_column rest name
  end.

(** [df.with_columns([expr.alias(name)])]: a column of that name is
    replaced where it stands, a new name is appended. *)
Fixpoint with_column (df : dataframe) (name : string) (s : series)
  : dataframe :=
  match df with
  | [] => [(name, s)]
  | (n, old) :: rest =>
      if String.eqb n name then (n, s) :: rest
      else (n, old) :: with_column rest name s
  end.

(** A string column holds strings and nulls. *)
Definition is_utf8 (s : series) : bool :=
  forallb (fun v => match v with PyNone | PyStr _ => true | _ => false end) s.

(** [expr.map_elements(f, return_dtype=pl.Utf8)] on a string column: the
    function is applied to every cell but the nulls. *)
Definition map_elements (f : pyval -> pyval) (s : series) : series :=
  map (fun v => match v with PyNone => PyNone | _ => f v end) s.

(** [df.select(name).n_unique()] counts the distinct cells, null
    included. *)
Definition n_unique (s : series) : Z :=
  Z.of_nat (length (nodup pyval_eq_dec s)).

Fixpoint keep (mask : list bool) (s : series) : series :=
  match mask, s with
  | b :: mask', v :: s' => if b then v :: keep mask' s' else keep mask' s'
  | _, _ => []
  end.

(** [df.filter(pl.col(name) == value)]: the rows whose cell equals the
    value, in order; a null cell is not equal to it. *)
Definition filter_eq (df : dataframe) (name : string) (value : pyval)
  : option dataframe :=
  match get_column df name with
  | None => None
  | Some col =>
      let mask := map (fun v => if pyval_eq_dec v value then true else false)
                      col in
      Some (map (fun c => (fst c, keep mask (snd c))) df)
  end.

(** [df.drop(names)], which raises when a name is not a column. *)
Definition drop (df : dataframe) (names : list string) : option dataframe :=
  if forallb (fun n => existsb (String.eqb n) (columns df)) names
  then Some (filter (fun c => negb (existsb (String.eqb (fst c)) names)) df)
  else None.

End Polars.

(** ** preprocessing/process_data.py *)

Module ProcessData.

Import Re.

(** The dictionary [accent_patterns], in insertion order. *)
Definition accent_patterns : list (pattern * str) :=
  [ (Class [0xE0; 0xE2; 0xE4], of_ascii "a");
    (Class [0xE9; 0xE8; 0xEA; 0xEB], of_ascii "e");
    (Class [0xEF; 0xEE], of_ascii "i");
    (Class [0xF4; 0xF6], of_ascii "o");
    (Class [0xF9; 0xFB; 0xFC], of_ascii "u");
    (Class [0xFF; 0xFD], of_ascii "y");
    (Lit [0xE7], of_ascii "c");
    (Lit [0xF1], of_ascii "n") ].

(** The loop [for pattern, replacement in accent_patterns.items()]. *)
Definition apply_patterns (pats : list (pattern * str)) (name : str) : str :=
  fold_left (fun name pr => sub (fst pr) (Text (snd pr)) name) pats name.

Definition normalize_name_accent (name : pyval) : pyval :=
  if negb (truthy name) || negb (isinstance_str name) then name
  else
    match name with
    | PyStr s =>
        let name := strip (Unicode.lower s) in
        PyStr (apply_patterns accent_patterns name)
    | _ => name
    end.

Definition normalize_name_phonetic (name : pyval) : pyval :=
  if negb (truthy name) || negb (isinstance_str name) then name
  else
    match normalize_name_accent name with
    | PyStr name =>
        let name := sub (Lit (of_ascii "y")) (Text (of_ascii "i")) name in
        let name := sub Repeat Group1 name in
        let name := sub (LitEnd (of_ascii "ard")) (Text (of_ascii "ar")) name in
        let name := sub (Lit (of_ascii "ph")) (Text (of_ascii "f")) name in
        let name :=
          sub (Alt (of_ascii "ck") (of_ascii "qu")) (Text (of_ascii "k")) name in
        let name := sub (LitEnd (of_ascii "ie")) (Text (of_ascii "i")) name in
        let name := sub (Lit (of_ascii "h")) (Text []) name in
        let name := sub Spaces (Text (of_ascii " ")) name in
        let name := sub (Plus 0x2D) (Text (of_ascii "-")) name in
        PyStr (strip_chars (of_ascii "- ") name)
    | other => other
    end.

(** A call of [normalize_name_accent] with any object.  The guard takes the
    truth value of the argument first, which can raise; what is not a
    non-empty string is returned as it is; a non-empty string goes through
    the function above. *)
Definition call_normalize_name_accent (name : pyobject) : outcome :=
  match truth_value name with
  | None => Raises
  | Some t =>
      if negb t || negb (is_str name) then Returns name
      else
        match name with
        | Value v => Returns (Value (normalize_name_accent v))
        | _ => Returns name
        end
  end.

(** A call of [normalize_name_phonetic] with any object. *)
Definition call_normalize_name_phonetic (name : pyobject) : outcome :=
  match truth_value name with
  | None => Raises
  | Some t =>
      if negb t || negb (is_str name) then Returns name
      else
        match name with
        | Value v => Returns (Value (normalize_name_phonetic v))
        | _ => Returns name
        end
  end.

Import Polars.

(** [load_and_filter_data], from the frame read from the input file on.
    Before and after each step it prints the count of distinct names, for
    which it selects the column [prenom]: the three lookups raise when the
    column is missing. *)
Definition load_and_filter_data (df : dataframe) : option dataframe :=
  match get_column df "prenom" with
  | None => None
  | Some _ =>
      match filter_eq df "niveau_geographique" (PyStr (of_ascii "FRANCE")) with
      | None => None
      | Some df_national =>
          match get_column df_national "prenom" with
          | None => None
          | Some _ =>
              match drop df_national
                         ["niveau_geographique"; "geographie"]%string with
              | None => None
              | Some df_clean =>
                  match get_column df_clean "prenom" with
                  | None => None
                  | Some _ => Some df_clean
                  end
              end
          end
      end
  end.

(** The numbers [print_statistics] prints: the count of distinct names,
    then for each column to compare that the frame has, its name, its count
    of distinct values and the reduction. *)
Definition print_statistics (df : dataframe)
           (columns_to_compare : option (list string))
  : option (Z * list (string * Z * Z)) :=
  match get_column df "prenom" with
  | None => None
  | Some names =>
      let original_unique := n_unique names in
      Some (original_unique,
            match columns_to_compare with
            | None => []
            | Some cols =>
                flat_map
                  (fun col =>
                     match get_column df col with
                     | Some values =>
                         let unique_count := n_unique values in
                         let reduction := (original_unique - unique_count)%Z in
                         [(col, unique_count, reduction)]
                     | None => []
                     end) cols
            end)
  end.

(** [add_column_to_dataframe]; the name column is a string column. *)
Definition add_column_to_dataframe (df : dataframe) (column_name : string)
           (normalization_func : pyval -> pyval) : option dataframe :=
  match get_column df "prenom" with
  | None => None
  | Some names =>
      if is_utf8 names
      then Some (with_column df column_name
                             (map_elements normalization_func names))
      else None
  end.

(** The two columns [process_data] adds to the frame it has loaded. *)
Definition add_normalized_columns (df : dataframe) : option dataframe :=
  match add_column_to_dataframe df "prenom_accent_normalized"
                                normalize_name_accent with
  | None => None
  | Some df =>
      add_column_to_dataframe df "prenom_phonetic_normalized"
                              normalize_name_phonetic
  end.

(** [process_data], from the frame read from the input file to the frame
    it saves and returns. *)
Definition process_data (input : dataframe) : option dataframe :=
  match load_and_filter_data input with
  | None => None
  | Some df => add_normalized_columns df
  end.

End ProcessData.

(** ** create_accent_agnostic_parquet.py *)

Module AccentAgnostic.

Import Re Polars.

(** The dictionary [accent_patterns] of this script, code point by code
    point as the file has it: every accented letter of the other scripts
    stands here as two characters, U+0102 and a second one. *)
Definition accent_patterns : list (pattern * str) :=
  [ (Class [0x102; 0xA0; 0x102; 0x105; 0x102; 0x20AC], of_ascii "a");
    (Class [0x102; 0xA9; 0x102; 0x161; 0x102; 0x218; 0x102; 0xAB],
     of_ascii "e");
    (Class [0x102; 0x17B; 0x102; 0x17A], of_ascii "i");
    (Class [0x102; 0x17D; 0x102; 0xB6], of_ascii "o");
    (Class [0x102; 0x10D; 0x102; 0xBB; 0x102; 0x152], of_ascii "u");
    (Class [0x102; 0x17C; 0x102; 0x153], of_ascii "y");
    (Lit [0x102; 0xA7], of_ascii "c");
    (Lit [0x102; 0xB1], of_ascii "n") ].

Definition normalize_name_accent_agnostic (name : pyval) : pyval :=
  if negb (truthy name) || negb (isinstance_str name) then name
  else
    match name with
    | PyStr s =>
        let name := strip (Unicode.lower s) in
        PyStr (ProcessData.apply_patterns accent_patterns name)
    | _ => name
    end.

(** The first part of [add_accent_agnostic_column], up to
    [df.write_parquet(output_file)]: the frame it writes to the output
    file.  [Some] means that the file is written, not that the function
    returns: it goes on to print the [statistics] below and then examples,
    and the loop over the examples calls [original.lower()], which raises
    on a null name. *)
Definition add_accent_agnostic_column (df : dataframe) : option dataframe :=
  match get_column df "prenom" with
  | None => None
  | Some names =>
      if is_utf8 names
      then Some (with_column df "prenom_accent_agnostic"
                   (map_elements normalize_name_accent_agnostic names))
      else None
  end.

(** The second part, the numbers it prints after writing the file: the
    counts of distinct names, accent-agnostic names and normalized names,
    and the two reductions.  It raises when one of the three columns is
    missing. *)
Definition statistics (df : dataframe) : option (Z * Z * Z * Z * Z) :=
  match get_column df "prenom" with
  | None => None
  | Some names =>
      match get_column df "prenom_accent_agnostic" with
      | None => None
      | Some folded =>
          match get_column df "prenom_normalized" with
          | None => None
          | Some normalized =>
              let original_unique := n_unique names in
              let accent_agnostic_unique := n_unique folded in
              let normalized_unique := n_unique normalized in
              Some (original_unique, accent_agnostic_unique,
                    normalized_unique,
                    original_unique - accent_agnostic_unique,
                    original_unique - normalized_unique)%Z
          end
      end
  end.

End AccentAgnostic.

(** ** create_similar_names_parquet.py *)

Module SimilarNames.

Import Re Polars.

Definition accent_patterns : list (pattern * str) :=
  [ (Class [0xE0; 0xE2; 0xE4], of_ascii "a");
    (Class [0xE9; 0xE8; 0xEA; 0xEB], of_ascii "e");
    (Class [0xEF; 0xEE], of_ascii "i");
    (Class [0xF4; 0xF6], of_ascii "o");
    (Class [0xF9; 0xFB; 0xFC], of_ascii "u");
    (Class [0xFF; 0xFD], of_ascii "y");
    (Lit [0xE7], of_ascii "c");
    (Lit [0xF1], of_ascii "n") ].

Definition normalize_name (name : pyval) : pyval :=
  if negb (truthy name) || negb (isinstance_str name) then name
  else
    match name with
    | PyStr s =>
        let name := strip (Unicode.lower s) in
        let name :=
          fold_left (fun name pr => sub (fst pr) (Text (snd pr)) name)
                    accent_patterns name in
        let name := sub (Lit (of_ascii "y")) (Text (of_ascii "i")) name in
        let name := sub Repeat Group1 name in
        let name := sub (LitEnd (of_ascii "ard")) (Text (of_ascii "ar")) name in
        let name := sub (Lit (of_ascii "ph")) (Text (of_ascii "f")) name in
        let name :=
          sub (Alt (of_ascii "ck") (of_ascii "qu")) (Text (of_ascii "k")) name in
        let name := sub (LitEnd (of_ascii "ie")) (Text (of_ascii "i")) name in
        let name := sub (Lit (of_ascii "h")) (Text []) name in
        let name := sub Spaces (Text (of_ascii " ")) name in
        let name := sub (Plus 0x2D) (Text (of_ascii "-")) name in
        PyStr (strip_chars (of_ascii "- ") name)
    | _ => name
    end.

(** The first part of [add_normalized_column], up to
    [df.write_parquet(output_file)]: the frame it writes to the output
    file.  [Some] means that the file is written, not that the function
    returns: the loop over the examples it prints afterwards calls
    [original.lower()], which raises on a null name. *)
Definition add_normalized_column (df : dataframe) : option dataframe :=
  match get_column df "prenom" with
  | None => None
  | Some names =>
      if is_utf8 names
      then Some (with_column df "prenom_normalized"
                   (map_elements normalize_name names))
      else None
  end.

End SimilarNames.

(** ** create_name_variants_parquet.py *)

Module NameVariants.

Import Re Polars.

Definition accent_patterns : list (pattern * str) :=
  [ (Class [0xE0; 0xE2; 0xE4], of_ascii "a");
    (Class [0xE9; 0xE8; 0xEA; 0xEB], of_ascii "e");
    (Class [0xEF; 0xEE], of_ascii "i");
    (Class [0xF4; 0xF6], of_ascii "o");
    (Class [0xF9; 0xFB; 0xFC], of_ascii "u");
    (Class [0xFF; 0xFD], of_ascii "y");
    (Lit [0xE7], of_ascii "c");
    (Lit [0xF1], of_ascii "n") ].

Definition normalize_name_accent (name : pyval) : pyval :=
  if negb (truthy name) || negb (isinstance_str name) then name
  else
    match name with
    | PyStr s =>
        let name := strip (Unicode.lower s) in
        PyStr (fold_left (fun name pr => sub (fst pr) (Text (snd pr)) name)
                         accent_patterns name)
    | _ => name
    end.

Definition normalize_name_phonetic (name : pyval) : pyval :=
  if negb (truthy name) || negb (isinstance_str name) then name
  else
    match normalize_name_accent name with
    | PyStr name =>
        let name := sub (Lit (of_ascii "y")) (Text (of_ascii "i")) name in
        let name := sub Repeat Group1 name in
        let name := sub (LitEnd (of_ascii "ard")) (Text (of_ascii "ar")) name in
        let name := sub (Lit (of_ascii "ph")) (Text (of_ascii "f")) name in
        let name :=
          sub (Alt (of_ascii "ck") (of_ascii "qu")) (Text (of_ascii "k")) name in
        let name := sub (LitEnd (of_ascii "ie")) (Text (of_ascii "i")) name in
        let name := sub (Lit (of_ascii "h")) (Text []) name in
        let name := sub Spaces (Text (of_ascii " ")) name in
        let name := sub (Plus 0x2D) (Text (of_ascii "-")) name in
        PyStr (strip_chars (of_ascii "- ") name)
    | other => other
    end.

Definition add_column_to_dataframe (df : dataframe) (column_name : string)
           (normalization_func : pyval -> pyval) : option dataframe :=
  match get_column df "prenom" with
  | None => None
  | Some names =>
      if is_utf8 names
      then Some (with_column df column_name
                             (map_elements normalization_func names))
      else None
  end.

(** [process_name_variants], from the frame read from the input file to the
    frame it saves and returns; no row is filtered and no column dropped. *)
Definition process_name_variants (df : dataframe) : option dataframe :=
  match add_column_to_dataframe df "prenom_accent_normalized"
                                normalize_name_accent with
  | None => None
  | Some df =>
      add_column_to_dataframe df "prenom_phonetic_normalized"
                              normalize_name_phonetic
  end.

End NameVariants.

(** ** Direct descriptions of single substitutions

    What [re.sub] computes for the simple patterns, as structural
    recursions; they are proved equal to [Re.sub] below. *)

(** Every character that satisfies [f] is replaced by [w]. *)
Definition replace_chars (f : char -> bool) (w : str) (s : str) : str :=
  flat_map (fun c => if f c then w else [c]) s.

(** Every maximal run of characters that satisfy [f] is replaced by [w]:
    a character of the run is dropped when another one follows it. *)
Fixpoint collapse (f : char -> bool) (w : char) (s : str) : str :=
  match s with
  | [] => []
  | c :: rest =>
      if f c then
        match rest with
        | d :: _ => if f d then collapse f w rest else w :: collapse f w rest
        | [] => [w]
        end
      else c :: collapse f w rest
  end.

(** [p] matches nowhere in [s]. *)
Fixpoint free_of (p : Re.pattern) (s : str) : bool :=
  match s with
  | [] => true
  | _ :: rest =>
      match Re.match_at p s with
      | Some (S _, _) => false
      | _ => free_of p rest
      end
  end.

(** ** Predicates of the statements *)

(** The first character of [s], if any, does not satisfy [f]. *)
Definition hd_ok (f : char -> bool) (s : str) : bool :=
  match s with
  | c :: _ => negb (f c)
  | [] => true
  end.

(** Neither the first nor the last character of [s] satisfies [f]. *)
Definition ends_ok (f : char -> bool) (s : str) : bool :=
  hd_ok f s && hd_ok f (rev s).

(** Some two consecutive characters of [s] are related by [R]. *)
Fixpoint adjacent (R : char -> char -> bool) (s : str) : bool :=
  match s with
  | x :: rest =>
      match rest with
      | y :: _ => R x y
      | [] => false
      end || adjacent R rest
  | [] => false
  end.

(** [s] contains the character [c] twice in a row. *)
Definition has_double (c : char) (s : str) : bool :=
  adjacent (fun x y => (x =? c) && (y =? c)) s.

(** The characters the accent patterns of [process_data.py] match, and the
    letters they are replaced by. *)
Definition pattern_chars (p : Re.pattern) : str :=
  match p with
  | Re.Class cs => cs
  | Re.Lit w => w
  | _ => []
  end.

Definition accented : str :=
  flat_map (fun pr => pattern_chars (fst pr)) ProcessData.accent_patterns.

Definition base_letters : str := flat_map snd ProcessData.accent_patterns.

(** What the accent patterns make of one character. *)
Definition deaccent (c : char) : char :=
  hd c (ProcessData.apply_patterns ProcessData.accent_patterns [c]).

(** The rules [normalize_name_phonetic] applies to the accent-folded name,
    as one function of that name. *)
Definition phonetic_rules (name : str) : str :=
  let name := Re.sub (Re.Lit (of_ascii "y")) (Re.Text (of_ascii "i")) name in
  let name := Re.sub Re.Repeat Re.Group1 name in
  let name :=
    Re.sub (Re.LitEnd (of_ascii "ard")) (Re.Text (of_ascii "ar")) name in
  let name := Re.sub (Re.Lit (of_ascii "ph")) (Re.Text (of_ascii "f")) name in
  let name :=
    Re.sub (Re.Alt (of_ascii "ck") (of_ascii "qu")) (Re.Text (of_ascii "k"))
           name in
  let name :=
    Re.sub (Re.LitEnd (of_ascii "ie")) (Re.Text (of_ascii "i")) name in
  let name := Re.sub (Re.Lit (of_ascii "h")) (Re.Text []) name in
  let name := Re.sub Re.Spaces (Re.Text (of_ascii " ")) name in
  let name := Re.sub (Re.Plus 0x2D) (Re.Text (of_ascii "-")) name in
  strip_chars (of_ascii "- ") name.

(** A value, an object, that is a non-empty string. *)
Definition nonempty_string (v : pyval) : bool :=
  match v with
  | PyStr (_ :: _) => true
  | _ => false
  end.

Definition nonempty_string_object (o : pyobject) : bool :=
  match o with
  | Value v => nonempty_string v
  | _ => false
  end.

(** The alphabet [a-z], space and hyphen. *)
Definition in_alphabet (c : char) : bool :=
  ((0x61 <=? c) && (c <=? 0x7A)) || (c =? 0x20) || (c =? 0x2D).

(** Number of distinct characters of a text. *)
Definition distinct_chars (s : str) : nat := length (nodup N.eq_dec s).

(** Phonetic folding as a function of the accent-folded value. *)
Definition phonetic_of_accent (v : pyval) : pyval :=
  match v with
  | PyStr name => PyStr (phonetic_rules name)
  | other => other
  end.

(** Every column of the frame has [h] cells. *)
Definition rectangular (h : nat) (df : Polars.dataframe) : Prop :=
  Forall (fun c => length (snd c) = h) df.

(** The national rows: the cell of the level column is "FRANCE". *)
Definition is_france (v : pyval) : bool :=
  if pyval_eq_dec v (PyStr (of_ascii "FRANCE")) then true else false.

Definition geography : list string :=
  ["niveau_geographique"; "geographie"]%string.

(** The characters of the classes of [create_accent_agnostic_parquet.py]. *)
Definition agnostic_chars : str :=
  flat_map (fun pr => match fst pr with Re.Class cs => cs | _ => [] end)
           AccentAgnostic.accent_patterns.

(** The least length of a match of a pattern and the greatest length of
    what a template writes for it. *)
Definition min_match (p : Re.pattern) : nat :=
  match p with
  | Re.Lit w => length w
  | Re.Class _ => 1
  | Re.Alt w1 w2 => Nat.min (length w1) (length w2)
  | Re.Repeat => 2
  | Re.LitEnd w => length w
  | Re.Spaces => 1
  | Re.Plus _ => 1
  end.

Definition max_expand (p : Re.pattern) (t : Re.template) : nat :=
  match t with
  | Re.Text w => length w
  | Re.Group1 =>
      match p with
      | Re.Repeat => 1
      | Re.Alt w1 w2 => Nat.max (length w1) (length w2)
      | _ => 0
      end
  end.

(** The characters phonetic folding can remove altogether: "h", the hyphen
    and whitespace. *)
Definition silent (c : char) : bool :=
  (c =? 0x68) || (c =? 0x2D) || Unicode.isspace c.

(** What a list of class and one-character patterns makes of one
    character: the replacement of the first pattern that has it. *)
Definition fold_char (pats : list (Re.pattern * str)) (c : char) : str :=
  match find (fun pr => mem c (pattern_chars (fst pr))) pats with
  | Some pr => snd pr
  | None => [c]
  end.

(** A pattern that matches single characters. *)
Definition char_pattern (p : Re.pattern) : bool :=
  match p with
  | Re.Class _ => true
  | Re.Lit [_] => true
  | _ => false
  end.

(** A table of patterns whose order cannot matter: every pattern matches
    single characters, no replacement has a character that some pattern
    matches, and two patterns that share a character have the same
    replacement. *)
Definition separated (pats : list (Re.pattern * str)) : bool :=
  forallb
    (fun pr =>
       char_pattern (fst pr)
       && forallb
            (fun pr' =>
               forallb (fun c => negb (mem c (pattern_chars (fst pr'))))
                       (snd pr)
               && (forallb (fun c => negb (mem c (pattern_chars (fst pr'))))
                           (pattern_chars (fst pr))
                   || str_eqb (snd pr) (snd pr')))
            pats)
    pats.

(** * Properties *)

(** ** Unicode lowercase *)

Lemma str_eqb_eq (a b : str) : str_eqb a b = true <-> a = b.
Proof.
  revert b; induction a as [|x a IH]; intros [|y b]; simpl;
    try (split; [discriminate | discriminate]); try tauto.
  rewrite andb_true_iff, N.eqb_eq, IH.
  split; [intros [-> ->]; reflexivity | intros E; injection E; auto].
Qed.

Lemma mem_In (c : char) (cs : str) : mem c cs = true <-> In c cs.
Proof.
  unfold mem. rewrite existsb_exists. split.
  - intros (x & Hx & E). apply N.eqb_eq in E. subst. exact Hx.
  - intros H. exists c. split; [exact H | apply N.eqb_refl].
Qed.

Lemma in_eq_cons (A : Type) (x y : A) (l : list A) : x = y -> In x (y :: l).
Proof. intros ->. apply in_eq. Qed.

Lemma in_range_elems (r : N * N * N * N) (c : char) :
  Unicode.in_range r c = true -> In c (Unicode.range_elems r).
Proof.
  destruct r as [[[lo hi] step] img]. unfold Unicode.in_range, Unicode.range_elems.
  destruct (N.leb_spec lo c) as [Hlo|]; [|discriminate].
  destruct (N.leb_spec c hi) as [Hhi|]; [|discriminate].
  rewrite N.eqb_eq. intros Hmod.
  apply in_map_iff. exists (N.to_nat ((c - lo) / step)). split.
  - rewrite N2Nat.id.
    destruct (N.eq_dec step 0) as [->|Hs].
    + rewrite N.mod_0_r in Hmod. rewrite N.div_0_r. lia.
    + pose proof (N.div_mod (c - lo) step Hs) as D. rewrite Hmod in D. lia.
  - apply in_seq. split; [apply Nat.le_0_l|]. simpl.
    assert (L : (c - lo) / step <= (hi - lo) / step).
    { destruct (N.eq_dec step 0) as [->|Hs].
      - rewrite !N.div_0_r. lia.
      - apply N.Div0.div_le_mono; lia. }
    revert L. generalize ((c - lo) / step), ((hi - lo) / step). lia.
Qed.

Lemma cased_lower_fixed :
  forallb (fun c => forallb (fun d => str_eqb (Unicode.lower_cp d) [d])
                            (Unicode.lower_cp c))
          Unicode.cased = true.
Proof. vm_compute. reflexivity. Qed.

Lemma cased_spec (c d : char) :
  In c Unicode.cased -> In d (Unicode.lower_cp c) -> Unicode.lower_cp d = [d].
Proof.
  intros Hc Hd. apply str_eqb_eq.
  pose proof cased_lower_fixed as K.
  rewrite forallb_forall in K. specialize (K c Hc).
  rewrite forallb_forall in K. exact (K d Hd).
Qed.

Lemma lower_cp_cases (c : char) :
  In c Unicode.cased \/ Unicode.lower_cp c = [c].
Proof.
  unfold Unicode.lower_cp.
  destruct (c =? 0x130) eqn:E.
  - apply N.eqb_eq in E. left. apply in_eq_cons. exact E.
  - destruct (find _ Unicode.lower_ranges) as [r|] eqn:F.
    + apply find_some in F. destruct F as [Hr Hin]. left.
      apply in_cons. apply in_flat_map. exists r. split; [exact Hr|].
      apply in_range_elems. exact Hin.
    + right. reflexivity.
Qed.

(** Lower-casing maps every code point to lowercase ones: a code point in
    the image of [lower_cp] is its own lowercase. *)
Lemma lower_cp_fixed (c d : char) :
  In d (Unicode.lower_cp c) -> Unicode.lower_cp d = [d].
Proof.
  intros Hd. destruct (lower_cp_cases c) as [Hc|Hc].
  - exact (cased_spec c d Hc Hd).
  - rewrite Hc in Hd. destruct Hd as [<-|[]]. exact Hc.
Qed.

Lemma lower_fixed (s : str) :
  (forall d, In d s -> Unicode.lower_cp d = [d]) -> Unicode.lower s = s.
Proof.
  induction s as [|c s IH]; intros H; simpl; [reflexivity|].
  rewrite (H c (or_introl eq_refl)). simpl. f_equal.
  apply IH. intros d Hd. apply H. right. exact Hd.
Qed.

Lemma lower_image (s : str) (d : char) :
  In d (Unicode.lower s) -> Unicode.lower_cp d = [d].
Proof.
  unfold Unicode.lower. rewrite in_flat_map. intros (c & _ & Hd).
  exact (lower_cp_fixed c d Hd).
Qed.

(** ** [re.sub] *)

Section Sub.

Import Re.
Variable p : pattern.
Variable t : template.

Lemma sub_from_skip (k : nat) (s : str) :
  sub_from p t k s = sub p t (skipn k s).
Proof.
  revert k; induction s as [|c rest IH]; intros [|k]; try reflexivity.
  simpl. apply IH.
Qed.

Lemma sub_cons (c : char) (rest : str) :
  sub p t (c :: rest) =
  match match_at p (c :: rest) with
  | Some (S n, g) => expand t g ++ sub p t (skipn n rest)
  | _ => c :: sub p t rest
  end.
Proof.
  unfold sub at 1. cbn [sub_from].
  destruct (match_at p (c :: rest)) as [[[|n] g]|]; try reflexivity.
  rewrite sub_from_skip. reflexivity.
Qed.

Lemma sub_free (s : str) : free_of p s = true -> sub p t s = s.
Proof.
  induction s as [|c rest IH]; [reflexivity|].
  rewrite sub_cons. cbn [free_of].
  destruct (match_at p (c :: rest)) as [[[|n] g]|]; intros H;
    try discriminate; f_equal; apply IH; exact H.
Qed.

End Sub.

Lemma skipn_In (A : Type) (n : nat) (l : list A) (x : A) :
  In x (skipn n l) -> In x l.
Proof.
  intros H. rewrite <- (firstn_skipn n l). apply in_or_app. right. exact H.
Qed.

Lemma starts_with_In (w s : str) (x : char) :
  Re.starts_with w s = true -> In x w -> In x s.
Proof.
  revert s; induction w as [|a w IH]; intros [|b s]; simpl; try easy.
  rewrite andb_true_iff, N.eqb_eq. intros [-> Hw] [<-|Hx]; auto.
Qed.

(** Group 1 of a match is text of the subject. *)
Lemma match_at_group (p : Re.pattern) (s g : str) (n : nat) (x : char) :
  Re.match_at p s = Some (n, g) -> In x g -> In x s.
Proof.
  destruct p; simpl.
  - destruct (Re.starts_with w s); [|discriminate]. intros [= _ <-] [].
  - destruct s as [|c s]; [discriminate|].
    destruct (mem c cs); [|discriminate]. intros [= _ <-] [].
  - destruct (Re.starts_with w1 s) eqn:E1.
    + intros [= _ <-]. apply starts_with_In. exact E1.
    + destruct (Re.starts_with w2 s) eqn:E2; [|discriminate].
      intros [= _ <-]. apply starts_with_In. exact E2.
  - destruct s as [|c s]; [discriminate|].
    destruct (c =? 0xA); [discriminate|].
    destruct (Re.run_length (N.eqb c) s); [discriminate|].
    intros [= _ <-] [<-|[]]. left. reflexivity.
  - destruct (Re.starts_with w s && Re.at_end (skipn (length w) s));
      [|discriminate]. intros [= _ <-] [].
  - destruct (Re.run_length Unicode.isspace s); [discriminate|].
    intros [= _ <-] [].
  - destruct (Re.run_length (N.eqb c) s); [discriminate|].
    intros [= _ <-] [].
Qed.

(** A substitution writes only characters of the subject and of the
    replacement text. *)
Lemma sub_In (p : Re.pattern) (t : Re.template) (x : char) (s : str) :
  In x (Re.sub p t s) ->
  In x s \/ In x (match t with Re.Text w => w | Re.Group1 => [] end).
Proof.
  remember (length s) as n eqn:Hn. revert s Hn.
  induction n as [n IH] using lt_wf_ind. intros [|c rest] Hn; [intros []|].
  rewrite sub_cons.
  destruct (Re.match_at p (c :: rest)) as [[[|m] g]|] eqn:M.
  - intros [<-|H]; [left; left; reflexivity|].
    destruct (IH (length rest) ltac:(simpl in Hn; lia) rest eq_refl H); auto.
    left. right. assumption.
  - intros H. apply in_app_or in H. destruct H as [H|H].
    + destruct t as [w|]; simpl in H; [right; exact H|].
      left. exact (match_at_group p _ _ _ _ M H).
    + assert (L : (length (skipn m rest) < n)%nat).
      { rewrite length_skipn. simpl in Hn. lia. }
      destruct (IH _ L _ eq_refl H) as [H'|H']; [|right; exact H'].
      left. right. exact (skipn_In _ _ _ _ H').
  - intros [<-|H]; [left; left; reflexivity|].
    destruct (IH (length rest) ltac:(simpl in Hn; lia) rest eq_refl H); auto.
    left. right. assumption.
Qed.

(** A class or a one-character literal is replaced character by character. *)
Lemma sub_class (cs w s : str) :
  Re.sub (Re.Class cs) (Re.Text w) s = replace_chars (fun c => mem c cs) w s.
Proof.
  induction s as [|c rest IH]; [reflexivity|].
  rewrite sub_cons. cbn [Re.match_at replace_chars flat_map].
  destruct (mem c cs); cbn [Re.expand skipn]; [f_equal|]; rewrite IH;
    reflexivity.
Qed.

Lemma sub_lit1 (a : char) (w s : str) :
  Re.sub (Re.Lit [a]) (Re.Text w) s = replace_chars (fun c => mem c [a]) w s.
Proof.
  induction s as [|c rest IH]; [reflexivity|].
  rewrite sub_cons.
  cbn [Re.match_at Re.starts_with replace_chars flat_map mem existsb].
  rewrite andb_true_r, orb_false_r, (N.eqb_sym c a).
  destruct (a =? c); cbn [length Re.expand skipn]; [f_equal|]; rewrite IH;
    reflexivity.
Qed.

Lemma collapse_run (f : char -> bool) (w c : char) (rest : str) :
  f c = true ->
  collapse f w (c :: rest) =
  w :: collapse f w (skipn (Re.run_length f rest) rest).
Proof.
  revert c; induction rest as [|d r IH]; intros c Hc.
  - simpl. rewrite Hc. reflexivity.
  - change (collapse f w (c :: d :: r))
      with (if f c
            then if f d then collapse f w (d :: r)
                 else w :: collapse f w (d :: r)
            else c :: collapse f w (d :: r)).
    rewrite Hc. cbn [Re.run_length].
    destruct (f d) eqn:Hd; cbn [skipn]; [apply (IH d Hd) | reflexivity].
Qed.

(** A pattern [x+] over the characters that satisfy [f], replaced by one
    character. *)
Lemma sub_runs (p : Re.pattern) (f : char -> bool) (w : char) :
  (forall s, Re.match_at p s =
             match Re.run_length f s with
             | O => None
             | n => Some (n, [])
             end) ->
  forall s, Re.sub p (Re.Text [w]) s = collapse f w s.
Proof.
  intros Hp s. remember (length s) as n eqn:Hn. revert s Hn.
  induction n as [n IH] using lt_wf_ind. intros [|c rest] Hn; [reflexivity|].
  rewrite sub_cons, Hp. cbn [Re.run_length].
  destruct (f c) eqn:Hc.
  - rewrite (collapse_run f w c rest Hc). cbn [Re.expand app]. f_equal.
    apply (IH (length (skipn (Re.run_length f rest) rest))); [|reflexivity].
    rewrite length_skipn. simpl in Hn. lia.
  - cbn [collapse]. rewrite Hc. f_equal.
    apply (IH (length rest)); [simpl in Hn; lia | reflexivity].
Qed.

Lemma sub_spaces (s : str) :
  Re.sub Re.Spaces (Re.Text [0x20]) s = collapse Unicode.isspace 0x20 s.
Proof. apply sub_runs. intros u. reflexivity. Qed.

Lemma sub_plus (c : char) (s : str) :
  Re.sub (Re.Plus c) (Re.Text [c]) s = collapse (N.eqb c) c s.
Proof. apply sub_runs. intros u. reflexivity. Qed.

Lemma replace_chars_app (f : char -> bool) (w a b : str) :
  replace_chars f w (a ++ b) = replace_chars f w a ++ replace_chars f w b.
Proof. unfold replace_chars. apply flat_map_app. Qed.

Lemma replace_chars_fixed (f : char -> bool) (w s : str) :
  Forall (fun c => f c = false) s -> replace_chars f w s = s.
Proof.
  induction 1 as [|c s Hc _ IH]; [reflexivity|].
  unfold replace_chars in *. simpl. rewrite Hc, IH. reflexivity.
Qed.

Lemma replace_chars_gone (f : char -> bool) (w s : str) :
  Forall (fun c => f c = false) w ->
  Forall (fun c => f c = false) (replace_chars f w s).
Proof.
  intros Hw. induction s as [|c s IH]; [constructor|].
  unfold replace_chars in *. simpl. apply Forall_app. split; [|exact IH].
  destruct (f c) eqn:E; [exact Hw | constructor; [exact E | constructor]].
Qed.

Lemma sub_Forall (P : char -> Prop) (p : Re.pattern) (t : Re.template)
      (s : str) :
  Forall P s ->
  Forall P (match t with Re.Text w => w | Re.Group1 => [] end) ->
  Forall P (Re.sub p t s).
Proof.
  rewrite !Forall_forall. intros Hs Ht x Hx.
  destruct (sub_In p t x s Hx); auto.
Qed.

(** ** [str.strip] *)

Lemma lstrip_split (f : char -> bool) (s : str) :
  exists pre, s = pre ++ lstrip f s.
Proof.
  induction s as [|c s [pre IH]]; [exists []; reflexivity|].
  simpl. destruct (f c); [|exists []; reflexivity].
  exists (c :: pre). simpl. f_equal. exact IH.
Qed.

Lemma lstrip_hd (f : char -> bool) (s : str) : hd_ok f (lstrip f s) = true.
Proof.
  induction s as [|c s IH]; [reflexivity|].
  simpl. destruct (f c) eqn:E; [exact IH|]. simpl. rewrite E. reflexivity.
Qed.

Lemma lstrip_fixed (f : char -> bool) (s : str) :
  hd_ok f s = true -> lstrip f s = s.
Proof.
  destruct s as [|c s]; [reflexivity|]. simpl.
  destruct (f c); [discriminate | reflexivity].
Qed.

Lemma strip_with_split (f : char -> bool) (s : str) :
  exists pre post, s = pre ++ strip_with f s ++ post.
Proof.
  unfold strip_with, rstrip.
  destruct (lstrip_split f s) as [pre Hpre].
  destruct (lstrip_split f (rev (lstrip f s))) as [post Hpost].
  exists pre, (rev post). rewrite <- rev_app_distr, <- Hpost, rev_involutive.
  exact Hpre.
Qed.

Lemma strip_with_In (f : char -> bool) (s : str) (x : char) :
  In x (strip_with f s) -> In x s.
Proof.
  destruct (strip_with_split f s) as (pre & post & E). intros H.
  rewrite E. apply in_or_app. right. apply in_or_app. left. exact H.
Qed.

Lemma strip_with_Forall (P : char -> Prop) (f : char -> bool) (s : str) :
  Forall P s -> Forall P (strip_with f s).
Proof.
  rewrite !Forall_forall. intros H x Hx. apply H.
  exact (strip_with_In f s x Hx).
Qed.

Lemma hd_ok_app (f : char -> bool) (a b : str) :
  hd_ok f (a ++ b) = true -> a <> [] -> hd_ok f a = true.
Proof. destruct a; [congruence | simpl; auto]. Qed.

(** After [strip], neither end of the text is a stripped character. *)
Lemma strip_with_ends (f : char -> bool) (s : str) :
  ends_ok f (strip_with f s) = true.
Proof.
  unfold ends_ok, strip_with, rstrip. rewrite rev_involutive.
  rewrite (lstrip_hd f (rev (lstrip f s))), andb_true_r.
  destruct (lstrip_split f (rev (lstrip f s))) as [pre E].
  destruct (lstrip f (rev (lstrip f s))) as [|c v] eqn:V; [reflexivity|].
  apply (hd_ok_app f (rev (c :: v)) (rev pre)).
  - rewrite <- rev_app_distr, <- E, rev_involutive. apply lstrip_hd.
  - intros H. apply (f_equal (@rev char)) in H.
    rewrite rev_involutive in H. discriminate.
Qed.

Lemma strip_with_fixed (f : char -> bool) (s : str) :
  ends_ok f s = true -> strip_with f s = s.
Proof.
  unfold ends_ok, strip_with, rstrip. rewrite andb_true_iff. intros [H1 H2].
  rewrite (lstrip_fixed f s H1), (lstrip_fixed f (rev s) H2).
  apply rev_involutive.
Qed.

(** ** Consecutive characters *)

Lemma adjacent_app_l (R : char -> char -> bool) (a b : str) :
  adjacent R a = true -> adjacent R (a ++ b) = true.
Proof.
  induction a as [|x a IH]; [discriminate|].
  cbn [adjacent app]. rewrite !orb_true_iff. intros [H|H].
  - left. destruct a; [discriminate | exact H].
  - right. apply IH. exact H.
Qed.

Lemma adjacent_app_r (R : char -> char -> bool) (a b : str) :
  adjacent R b = true -> adjacent R (a ++ b) = true.
Proof.
  intros H. induction a as [|x a IH]; [exact H|].
  cbn [adjacent app]. rewrite IH. apply orb_true_r.
Qed.

Lemma adjacent_strip (R : char -> char -> bool) (f : char -> bool) (s : str) :
  adjacent R s = false -> adjacent R (strip_with f s) = false.
Proof.
  destruct (strip_with_split f s) as (pre & post & E). intros H.
  destruct (adjacent R (strip_with f s)) eqn:A; [|reflexivity].
  rewrite E in H. rewrite <- H. symmetry.
  apply adjacent_app_r, adjacent_app_l. exact A.
Qed.

Lemma adjacent_weaken (R R' : char -> char -> bool) (s : str) :
  (forall x y, R' x y = true -> R x y = true) ->
  adjacent R s = false -> adjacent R' s = false.
Proof.
  intros HR. induction s as [|x s IH]; [reflexivity|].
  cbn [adjacent]. rewrite !orb_false_iff. intros [H1 H2].
  split; [|apply IH; exact H2].
  destruct s as [|y s]; [reflexivity|].
  destruct (R' x y) eqn:E; [|reflexivity]. rewrite (HR x y E) in H1.
  discriminate.
Qed.

(** ** Collapsed runs *)

Lemma adjacent_cons (R : char -> char -> bool) (x : char) (s : str) :
  adjacent R (x :: s) =
  match hd_error s with Some y => R x y | None => false end || adjacent R s.
Proof. destruct s; reflexivity. Qed.

Lemma collapse_hd (f : char -> bool) (w c : char) (s : str) :
  f c = false -> collapse f w (c :: s) = c :: collapse f w s.
Proof. intros H. simpl. rewrite H. reflexivity. Qed.

(** No two characters of a collapsed class are left side by side. *)
Lemma collapse_adjacent (f : char -> bool) (w : char) (s : str) :
  adjacent (fun x y => f x && f y) (collapse f w s) = false.
Proof.
  induction s as [|c s IH]; [reflexivity|].
  destruct s as [|d s].
  - simpl. destruct (f c); reflexivity.
  - change (collapse f w (c :: d :: s))
      with (if f c
            then if f d then collapse f w (d :: s)
                 else w :: collapse f w (d :: s)
            else c :: collapse f w (d :: s)).
    destruct (f c) eqn:Hc; [destruct (f d) eqn:Hd|].
    + exact IH.
    + rewrite adjacent_cons, IH, orb_false_r.
      rewrite (collapse_hd f w d s Hd). simpl. rewrite Hd.
      apply andb_false_r.
    + rewrite adjacent_cons, IH, orb_false_r.
      destruct (hd_error _); [rewrite Hc|]; reflexivity.
Qed.

(** Collapsing the runs of one character keeps the first character and
    creates no new neighbours. *)
Lemma collapse_same_hd (c : char) (s : str) :
  hd_error (collapse (N.eqb c) c s) = hd_error s.
Proof.
  induction s as [|x s IH]; [reflexivity|].
  destruct s as [|y s].
  - simpl. destruct (N.eqb_spec c x); [subst|]; reflexivity.
  - change (collapse (N.eqb c) c (x :: y :: s))
      with (if c =? x
            then if c =? y then collapse (N.eqb c) c (y :: s)
                 else c :: collapse (N.eqb c) c (y :: s)
            else x :: collapse (N.eqb c) c (y :: s)).
    destruct (N.eqb_spec c x) as [->|]; [|reflexivity].
    destruct (N.eqb_spec x y) as [->|]; [exact IH | reflexivity].
Qed.

Lemma collapse_same_adjacent (R : char -> char -> bool) (c : char) (s : str) :
  adjacent R s = false -> adjacent R (collapse (N.eqb c) c s) = false.
Proof.
  induction s as [|x s IH]; [reflexivity|].
  rewrite adjacent_cons, orb_false_iff. intros [H1 H2].
  specialize (IH H2).
  assert (E : collapse (N.eqb c) c (x :: s) = collapse (N.eqb c) c s
              \/ collapse (N.eqb c) c (x :: s) = x :: collapse (N.eqb c) c s).
  { destruct s as [|y s].
    - right. simpl. destruct (N.eqb_spec c x); [subst|]; reflexivity.
    - change (collapse (N.eqb c) c (x :: y :: s))
        with (if c =? x
              then if c =? y then collapse (N.eqb c) c (y :: s)
                   else c :: collapse (N.eqb c) c (y :: s)
              else x :: collapse (N.eqb c) c (y :: s)).
      destruct (N.eqb_spec c x) as [->|]; [|right; reflexivity].
      destruct (x =? y); [left | right]; reflexivity. }
  destruct E as [-> | ->]; [exact IH|].
  rewrite adjacent_cons, collapse_same_hd, H1, IH. reflexivity.
Qed.

Lemma collapse_In (f : char -> bool) (w x : char) (s : str) :
  In x (collapse f w s) -> x = w \/ (In x s /\ f x = false).
Proof.
  induction s as [|c s IH]; [intros []|].
  destruct s as [|d s].
  - simpl. destruct (f c) eqn:E; intros [<-|[]]; auto.
  - change (collapse f w (c :: d :: s))
      with (if f c
            then if f d then collapse f w (d :: s)
                 else w :: collapse f w (d :: s)
            else c :: collapse f w (d :: s)).
    destruct (f c) eqn:Hc; [destruct (f d) eqn:Hd|].
    + intros H. destruct (IH H) as [?|[? ?]]; auto.
      right. split; [right|]; assumption.
    + intros [<-|H]; [auto|]. destruct (IH H) as [?|[? ?]]; auto.
      right. split; [right|]; assumption.
    + intros [<-|H]; [right; split; [left; reflexivity | exact Hc]|].
      destruct (IH H) as [?|[? ?]]; auto.
      right. split; [right|]; assumption.
Qed.

(** Text whose runs are already single replacement characters is kept. *)
Lemma collapse_fixed (f : char -> bool) (w : char) (s : str) :
  Forall (fun c => f c = true -> c = w) s ->
  adjacent (fun x y => f x && f y) s = false ->
  collapse f w s = s.
Proof.
  induction s as [|c s IH]; [reflexivity|].
  intros HF HA. inversion HF as [|? ? Hc HF']; subst.
  rewrite adjacent_cons, orb_false_iff in HA. destruct HA as [H1 H2].
  specialize (IH HF' H2).
  destruct s as [|d s].
  - simpl. destruct (f c) eqn:E; [rewrite (Hc eq_refl)|]; reflexivity.
  - change (collapse f w (c :: d :: s))
      with (if f c
            then if f d then collapse f w (d :: s)
                 else w :: collapse f w (d :: s)
            else c :: collapse f w (d :: s)).
    rewrite IH. simpl in H1.
    destruct (f c) eqn:E; [|reflexivity].
    simpl in H1. rewrite H1, (Hc eq_refl). reflexivity.
Qed.

(** ** Accent folding, character by character *)

Import ProcessData.

Lemma accented_false (c : char) :
  mem c accented = false ->
  apply_patterns accent_patterns [c] = [c] /\ deaccent c = c.
Proof.
  intros E.
  assert (K : apply_patterns accent_patterns [c] = [c]).
  { cbn [accented flat_map pattern_chars accent_patterns fst app mem existsb]
      in E.
    repeat (apply orb_false_elim in E; destruct E as [? E]).
    unfold apply_patterns, accent_patterns. cbn [fold_left fst snd].
    rewrite !sub_class, !sub_lit1.
    repeat (cbn [replace_chars flat_map mem existsb app orb];
            match goal with
            | H : (c =? _) = false |- _ => rewrite H
            end).
    reflexivity. }
  split; [exact K|]. unfold deaccent. rewrite K. reflexivity.
Qed.

Lemma accented_true (c : char) :
  mem c accented = true ->
  apply_patterns accent_patterns [c] = [deaccent c]
  /\ mem (deaccent c) base_letters = true.
Proof.
  intros E. apply mem_In in E.
  cbn [accented flat_map pattern_chars accent_patterns fst app] in E.
  repeat (destruct E as [<-|E]; [split; vm_compute; reflexivity|]).
  destruct E.
Qed.

Lemma accent_char (c : char) :
  apply_patterns accent_patterns [c] = [deaccent c].
Proof.
  destruct (mem c accented) eqn:E.
  - apply accented_true. exact E.
  - destruct (accented_false c E) as [K D]. rewrite D. exact K.
Qed.

Lemma deaccent_cases (c : char) :
  deaccent c = c \/ mem (deaccent c) base_letters = true.
Proof.
  destruct (mem c accented) eqn:E.
  - right. apply accented_true. exact E.
  - left. apply accented_false. exact E.
Qed.

Lemma base_letters_plain (d : char) :
  mem d base_letters = true ->
  mem d accented = false /\ Unicode.isspace d = false
  /\ Unicode.lower_cp d = [d].
Proof.
  intros E. apply mem_In in E.
  cbn [base_letters flat_map accent_patterns snd app] in E.
  repeat (destruct E as [<-|E]; [repeat split; vm_compute; reflexivity|]).
  destruct E.
Qed.

Lemma deaccent_plain (c : char) : mem (deaccent c) accented = false.
Proof.
  destruct (mem c accented) eqn:E.
  - apply base_letters_plain, accented_true. exact E.
  - destruct (accented_false c E) as [_ ->]. exact E.
Qed.

Lemma deaccent_idem (c : char) : deaccent (deaccent c) = deaccent c.
Proof. apply accented_false, deaccent_plain. Qed.

Lemma apply_accent_app (a b : str) :
  apply_patterns accent_patterns (a ++ b) =
  apply_patterns accent_patterns a ++ apply_patterns accent_patterns b.
Proof.
  unfold apply_patterns, accent_patterns. cbn [fold_left fst snd].
  rewrite !sub_class, !sub_lit1, !replace_chars_app. reflexivity.
Qed.

(** The eight substitutions of the accent loop act on each character by
    itself. *)
Lemma apply_accent_map (s : str) :
  apply_patterns accent_patterns s = map deaccent s.
Proof.
  induction s as [|c s IH]; [reflexivity|].
  change (c :: s) with ([c] ++ s).
  rewrite apply_accent_app, accent_char, IH. reflexivity.
Qed.

Lemma normalize_name_accent_str (s : str) :
  normalize_name_accent (PyStr s) =
  PyStr (map deaccent (strip (Unicode.lower s))).
Proof.
  destruct s as [|c s]; [reflexivity|].
  unfold normalize_name_accent. cbn [truthy isinstance_str negb orb].
  rewrite apply_accent_map. reflexivity.
Qed.

Lemma normalize_name_phonetic_str (s : str) :
  normalize_name_phonetic (PyStr s) =
  PyStr (phonetic_rules (map deaccent (strip (Unicode.lower s)))).
Proof.
  destruct s as [|c s]; [reflexivity|].
  unfold normalize_name_phonetic. cbn [truthy isinstance_str negb orb].
  rewrite normalize_name_accent_str. reflexivity.
Qed.

Lemma hd_ok_deaccent (s : str) :
  hd_ok Unicode.isspace s = true ->
  hd_ok Unicode.isspace (map deaccent s) = true.
Proof.
  destruct s as [|c s]; [reflexivity|]. cbn [hd_ok map].
  destruct (deaccent_cases c) as [->|H]; [trivial|].
  intros _. destruct (base_letters_plain _ H) as (_ & -> & _). reflexivity.
Qed.

Lemma ends_ok_deaccent (s : str) :
  ends_ok Unicode.isspace s = true ->
  ends_ok Unicode.isspace (map deaccent s) = true.
Proof.
  unfold ends_ok. rewrite !andb_true_iff, <- map_rev.
  intros [H1 H2]. split; apply hd_ok_deaccent; assumption.
Qed.

Lemma lower_cp_deaccent (s : str) (d : char) :
  In d (map deaccent (strip (Unicode.lower s))) -> Unicode.lower_cp d = [d].
Proof.
  rewrite in_map_iff. intros (c & <- & Hc).
  destruct (deaccent_cases c) as [->|H].
  - apply (lower_image s). exact (strip_with_In _ _ _ Hc).
  - apply base_letters_plain. exact H.
Qed.

(** The accent-folded text is a fixed point of each step of accent
    folding. *)
Lemma accent_output_fixed (s : str) :
  let out := map deaccent (strip (Unicode.lower s)) in
  Unicode.lower out = out /\ strip out = out /\ map deaccent out = out.
Proof.
  intros out. split; [|split].
  - apply lower_fixed. apply lower_cp_deaccent.
  - apply strip_with_fixed, ends_ok_deaccent, strip_with_ends.
  - unfold out. rewrite map_map. apply map_ext. apply deaccent_idem.
Qed.

(** ** The phonetic rules *)

Lemma collapse_Forall (P : char -> Prop) (f : char -> bool) (w : char)
      (s : str) :
  Forall P s -> P w -> Forall P (collapse f w s).
Proof.
  rewrite !Forall_forall. intros Hs Hw x Hx.
  destruct (collapse_In f w x s Hx) as [->|[H _]]; auto.
Qed.

Lemma Forall_not_mem (a : char) (s : str) :
  Forall (fun c => mem c [a] = false) s -> mem a s = false.
Proof.
  induction 1 as [|c s Hc _ IH]; [reflexivity|].
  simpl in *. rewrite orb_false_r in Hc. rewrite N.eqb_sym, Hc. exact IH.
Qed.

(** The last four steps: [h] removed, runs of whitespace and of hyphens
    collapsed, spaces and hyphens stripped from both ends. *)
Lemma phonetic_rules_tail (x : str) :
  exists y,
    phonetic_rules x =
    strip_chars (of_ascii "- ")
      (collapse (N.eqb 0x2D) 0x2D
         (collapse Unicode.isspace 0x20
            (replace_chars (fun c => mem c [0x68]) [] y))).
Proof.
  unfold phonetic_rules. cbv zeta.
  change (of_ascii "h") with [0x68]. change (of_ascii " ") with [0x20].
  change (of_ascii "-") with [0x2D].
  rewrite sub_lit1, sub_spaces, sub_plus. eexists. reflexivity.
Qed.

Lemma phonetic_rules_shape (x : str) :
  let out := phonetic_rules x in
  mem 0x68 out = false
  /\ ends_ok (fun c => mem c (of_ascii "- ")) out = true
  /\ adjacent (fun a b => Unicode.isspace a && Unicode.isspace b) out = false
  /\ Forall (fun c => Unicode.isspace c = true -> c = 0x20) out
  /\ adjacent (fun a b => (0x2D =? a) && (0x2D =? b)) out = false.
Proof.
  destruct (phonetic_rules_tail x) as [y ->]. cbv zeta.
  set (h1 := replace_chars (fun c => mem c [0x68]) [] y).
  set (h2 := collapse Unicode.isspace 0x20 h1).
  set (h3 := collapse (N.eqb 0x2D) 0x2D h2).
  unfold strip_chars. repeat split.
  - apply Forall_not_mem, strip_with_Forall.
    apply collapse_Forall; [|reflexivity].
    apply collapse_Forall; [|reflexivity].
    apply replace_chars_gone. constructor.
  - apply strip_with_ends.
  - apply adjacent_strip, collapse_same_adjacent, collapse_adjacent.
  - apply strip_with_Forall. apply collapse_Forall; [|discriminate].
    apply Forall_forall. intros c Hc.
    destruct (collapse_In _ _ _ _ Hc) as [->|[_ E]]; [reflexivity|].
    rewrite E. discriminate.
  - apply adjacent_strip, collapse_adjacent.
Qed.

(** A property of characters that holds after the first rule and of the
    replacement letters holds of the output of the rules. *)
Lemma phonetic_rules_Forall_from (P : char -> Prop) (x : str) :
  Forall P (Re.sub (Re.Lit (of_ascii "y")) (Re.Text (of_ascii "i")) x) ->
  Forall P (of_ascii "ifkar -") ->
  Forall P (phonetic_rules x).
Proof.
  intros Hx Hw. rewrite Forall_forall in Hw.
  unfold phonetic_rules. cbv zeta. apply strip_with_Forall.
  do 8 (apply sub_Forall;
        [| apply Forall_forall; intros c Hc; apply Hw;
           revert Hc; vm_compute; tauto]).
  exact Hx.
Qed.

Lemma phonetic_rules_Forall (P : char -> Prop) (x : str) :
  Forall P x -> Forall P (of_ascii "ifkar -") -> Forall P (phonetic_rules x).
Proof.
  intros Hx Hw. apply phonetic_rules_Forall_from; [|exact Hw].
  apply sub_Forall; [exact Hx|]. inversion Hw; subst.
  constructor; [assumption | constructor].
Qed.

(** * The claims *)

(** C3. The scenarios of the specification: accent folding turns "Sophie"
    into "sophie"; phonetic folding turns "Sophie" into "sofi", "Quentin"
    into "kentin", "Hélio" into "elio", "Marie" into "mari" and "Bernard"
    into "bernar". *)
Theorem scenarios :
  normalize_name_accent (PyStr (of_ascii "Sophie")) = PyStr (of_ascii "sophie")
  /\ normalize_name_phonetic (PyStr (of_ascii "Sophie")) = PyStr (of_ascii "sofi")
  /\ normalize_name_phonetic (PyStr (of_ascii "Quentin"))
     = PyStr (of_ascii "kentin")
  /\ normalize_name_phonetic (PyStr (of_ascii "H" ++ [0xE9] ++ of_ascii "lio"))
     = PyStr (of_ascii "elio")
  /\ normalize_name_phonetic (PyStr (of_ascii "Marie")) = PyStr (of_ascii "mari")
  /\ normalize_name_phonetic (PyStr (of_ascii "Bernard"))
     = PyStr (of_ascii "bernar").
Proof. repeat split; vm_compute; reflexivity. Qed.

(** On a value the calls return what the functions return: a truth test
    raises only for other objects. *)
Lemma call_on_value (v : pyval) :
  call_normalize_name_accent (Value v)
  = Returns (Value (normalize_name_accent v))
  /\ call_normalize_name_phonetic (Value v)
     = Returns (Value (normalize_name_phonetic v)).
Proof.
  unfold call_normalize_name_accent, call_normalize_name_phonetic,
    normalize_name_accent, normalize_name_phonetic.
  cbn [truth_value is_str].
  destruct (negb (truthy v) || negb (isinstance_str v)); split; reflexivity.
Qed.

(** C5: an argument on which both folding functions raise.  The guard
    evaluates [not name] before [isinstance(name, str)], and the truth test
    of this object raises (as that of an array of several elements or of a
    missing-value marker does). *)
Lemma truth_test_raises :
  call_normalize_name_accent (PyOther 0 None) = Raises
  /\ call_normalize_name_phonetic (PyOther 0 None) = Raises.
Proof. split; reflexivity. Qed.

(** C5, amended.  An argument that is not a non-empty string ([None], the
    empty string, a number, bytes, a float, a list, any other object) is
    returned as it is by both folding functions, without raising, whenever
    its truth test returns; when its truth test raises, both functions
    raise. *)
Theorem degenerate_input_unchanged (o : pyobject) :
  nonempty_string_object o = false ->
  match truth_value o with
  | Some _ =>
      call_normalize_name_accent o = Returns o
      /\ call_normalize_name_phonetic o = Returns o
  | None =>
      call_normalize_name_accent o = Raises
      /\ call_normalize_name_phonetic o = Raises
  end.
Proof.
  intros H.
  unfold call_normalize_name_accent, call_normalize_name_phonetic.
  destruct o as [v|bits|items|id [t|]]; cbn [truth_value is_str negb].
  - assert (G : negb (truthy v) || negb (isinstance_str v) = true).
    { destruct v as [ |b|z|b|[|c s]]; try discriminate; simpl;
        try apply orb_true_r; reflexivity. }
    rewrite G. split; reflexivity.
  - rewrite orb_true_r. split; reflexivity.
  - rewrite orb_true_r. split; reflexivity.
  - rewrite orb_true_r. split; reflexivity.
  - split; reflexivity.
Qed.

Lemma degenerate_input_unchanged_witness :
  call_normalize_name_accent (PyList []) = Returns (PyList [])
  /\ call_normalize_name_phonetic (PyList []) = Returns (PyList []).
Proof. apply (degenerate_input_unchanged (PyList [])). reflexivity. Defined.

(** C6. The phonetic folding of a string contains no letter "h". *)
Theorem phonetic_no_h (s : str) :
  exists out,
    normalize_name_phonetic (PyStr s) = PyStr out /\ mem 0x68 out = false.
Proof.
  rewrite normalize_name_phonetic_str. eexists. split; [reflexivity|].
  apply phonetic_rules_shape.
Qed.

(** C7. Accent folding is idempotent on strings. *)
Theorem accent_idempotent (s : str) :
  normalize_name_accent (normalize_name_accent (PyStr s))
  = normalize_name_accent (PyStr s).
Proof.
  rewrite !normalize_name_accent_str.
  destruct (accent_output_fixed s) as (L & S & D). cbv zeta in *.
  rewrite L, S, D. reflexivity.
Qed.

(** C10. The phonetic folding of a string neither starts nor ends with a
    space or a hyphen and has no two consecutive spaces and no two
    consecutive hyphens. *)
Theorem phonetic_separators (s : str) :
  exists out,
    normalize_name_phonetic (PyStr s) = PyStr out
    /\ ends_ok (fun c => mem c (of_ascii "- ")) out = true
    /\ has_double 0x20 out = false
    /\ has_double 0x2D out = false.
Proof.
  rewrite normalize_name_phonetic_str. eexists. split; [reflexivity|].
  destruct (phonetic_rules_shape (map deaccent (strip (Unicode.lower s))))
    as (_ & E & A & _ & B).
  cbv zeta in *. repeat split.
  - exact E.
  - unfold has_double. revert A. apply adjacent_weaken.
    intros a b. rewrite !andb_true_iff, !N.eqb_eq. intros [-> ->].
    split; reflexivity.
  - unfold has_double. revert B. apply adjacent_weaken.
    intros a b. rewrite !andb_true_iff, !N.eqb_eq. intros [-> ->].
    split; reflexivity.
Qed.

(** ** Distinct values *)

Lemma nodup_map_length (A B : Type) (decA : forall x y : A, {x = y} + {x <> y})
      (decB : forall x y : B, {x = y} + {x <> y}) (f : A -> B) (l : list A) :
  (length (nodup decB (map f l)) <= length (nodup decA l))%nat.
Proof.
  rewrite <- (length_map f (nodup decA l)).
  apply NoDup_incl_length; [apply NoDup_nodup|].
  intros y Hy. apply nodup_In in Hy. apply in_map_iff in Hy.
  destruct Hy as (x & <- & Hx). apply in_map. apply nodup_In. exact Hx.
Qed.

Lemma n_unique_map (f : pyval -> pyval) (names : Polars.series) :
  (Polars.n_unique (map f names) <= Polars.n_unique names)%Z.
Proof.
  unfold Polars.n_unique. apply Nat2Z.inj_le. apply nodup_map_length.
Qed.

Lemma phonetic_factors (v : pyval) :
  normalize_name_phonetic v = phonetic_of_accent (normalize_name_accent v).
Proof.
  destruct v as [ |b|z|b|s];
    try (unfold normalize_name_phonetic, normalize_name_accent;
         cbn [isinstance_str negb]; rewrite orb_true_r; reflexivity).
  rewrite normalize_name_phonetic_str, normalize_name_accent_str.
  reflexivity.
Qed.

(** ** A second pass of the phonetic rules *)

Lemma not_mem_Forall (a : char) (s : str) :
  mem a s = false -> Forall (fun c => mem c [a] = false) s.
Proof.
  induction s as [|c s IH]; [constructor|]. simpl.
  rewrite orb_false_iff. intros [H1 H2]. constructor; [|apply IH; exact H2].
  rewrite orb_false_r, N.eqb_sym. exact H1.
Qed.

Lemma hd_ok_space (out : str) :
  Forall (fun c => Unicode.isspace c = true -> c = 0x20) out ->
  hd_ok (fun c => mem c (of_ascii "- ")) out = true ->
  hd_ok Unicode.isspace out = true.
Proof.
  destruct out as [|c out]; [reflexivity|]. simpl.
  intros H. inversion H as [|? ? Hc _]; subst.
  destruct (Unicode.isspace c); [|reflexivity].
  rewrite (Hc eq_refl). vm_compute. trivial.
Qed.

Lemma ends_ok_space (out : str) :
  Forall (fun c => Unicode.isspace c = true -> c = 0x20) out ->
  ends_ok (fun c => mem c (of_ascii "- ")) out = true ->
  ends_ok Unicode.isspace out = true.
Proof.
  unfold ends_ok. rewrite !andb_true_iff. intros H [H1 H2]. split.
  - apply hd_ok_space; assumption.
  - apply hd_ok_space; [apply Forall_rev|]; assumption.
Qed.

Lemma free_of_lit2 (a b : char) (s : str) :
  mem b s = false -> free_of (Re.Lit [a; b]) s = true.
Proof.
  induction s as [|c s IH]; [reflexivity|].
  simpl mem. rewrite orb_false_iff. intros [_ H].
  cbn [free_of Re.match_at Re.starts_with].
  destruct s as [|d s].
  - rewrite andb_false_r. reflexivity.
  - assert (E : (b =? d) = false).
    { simpl in H. apply orb_false_iff in H. apply H. }
    rewrite E. cbn [andb]. rewrite andb_false_r. apply IH. exact H.
Qed.

Lemma map_deaccent_fixed (s : str) :
  Forall (fun c => mem c accented = false) s -> map deaccent s = s.
Proof.
  induction 1 as [|c s Hc _ IH]; [reflexivity|].
  simpl. rewrite IH, (proj2 (accented_false c Hc)). reflexivity.
Qed.

(** What every output of phonetic folding satisfies. *)
Lemma phonetic_output_facts (s : str) :
  let out := phonetic_rules (map deaccent (strip (Unicode.lower s))) in
  Forall (fun d => Unicode.lower_cp d = [d]) out
  /\ Forall (fun c => mem c accented = false) out
  /\ Forall (fun c => mem c [0x79] = false) out.
Proof.
  cbv zeta. repeat split.
  - apply phonetic_rules_Forall.
    + apply Forall_forall. apply lower_cp_deaccent.
    + apply Forall_forall. intros c Hc. vm_compute in Hc.
      repeat (destruct Hc as [<-|Hc]; [vm_compute; reflexivity|]).
      destruct Hc.
  - apply phonetic_rules_Forall.
    + apply Forall_forall. intros c Hc. apply in_map_iff in Hc.
      destruct Hc as (c0 & <- & _). apply deaccent_plain.
    + apply Forall_forall. intros c Hc. vm_compute in Hc.
      repeat (destruct Hc as [<-|Hc]; [vm_compute; reflexivity|]).
      destruct Hc.
  - apply phonetic_rules_Forall_from.
    + change (of_ascii "y") with [0x79]. rewrite sub_lit1.
      apply replace_chars_gone. repeat constructor.
    + apply Forall_forall. intros c Hc. vm_compute in Hc.
      repeat (destruct Hc as [<-|Hc]; [vm_compute; reflexivity|]).
      destruct Hc.
Qed.

(** A text with the shape of an output, in which none of the four rules
    that later rules can re-enable matches, is left as it is by every
    rule. *)
Lemma settled_fixed (out : str) :
  Forall (fun d => Unicode.lower_cp d = [d]) out ->
  Forall (fun c => mem c accented = false) out ->
  Forall (fun c => mem c [0x79] = false) out ->
  mem 0x68 out = false ->
  ends_ok (fun c => mem c (of_ascii "- ")) out = true ->
  adjacent (fun a b => Unicode.isspace a && Unicode.isspace b) out = false ->
  Forall (fun c => Unicode.isspace c = true -> c = 0x20) out ->
  adjacent (fun a b => (0x2D =? a) && (0x2D =? b)) out = false ->
  free_of Re.Repeat out = true ->
  free_of (Re.LitEnd (of_ascii "ard")) out = true ->
  free_of (Re.Alt (of_ascii "ck") (of_ascii "qu")) out = true ->
  free_of (Re.LitEnd (of_ascii "ie")) out = true ->
  normalize_name_phonetic (PyStr out) = PyStr out.
Proof.
  intros Hlow Hacc Hy Hh Hends Hsp H20 Hhy R1 R2 R3 R4.
  rewrite normalize_name_phonetic_str.
  rewrite (lower_fixed out) by (apply Forall_forall; exact Hlow).
  unfold strip.
  rewrite (strip_with_fixed _ out (ends_ok_space out H20 Hends)).
  rewrite (map_deaccent_fixed out Hacc).
  f_equal. unfold phonetic_rules. cbv zeta.
  assert (E1 : Re.sub (Re.Lit (of_ascii "y")) (Re.Text (of_ascii "i")) out
               = out).
  { change (of_ascii "y") with [0x79]. rewrite sub_lit1.
    apply replace_chars_fixed. exact Hy. }
  rewrite E1, (sub_free Re.Repeat Re.Group1 out R1).
  rewrite (sub_free _ (Re.Text (of_ascii "ar")) out R2).
  assert (E4 : Re.sub (Re.Lit (of_ascii "ph")) (Re.Text (of_ascii "f")) out
               = out).
  { apply sub_free. apply (free_of_lit2 0x70 0x68). exact Hh. }
  rewrite E4, (sub_free _ (Re.Text (of_ascii "k")) out R3).
  rewrite (sub_free _ (Re.Text (of_ascii "i")) out R4).
  assert (E7 : Re.sub (Re.Lit (of_ascii "h")) (Re.Text []) out = out).
  { change (of_ascii "h") with [0x68]. rewrite sub_lit1.
    apply replace_chars_fixed. apply not_mem_Forall. exact Hh. }
  rewrite E7.
  change (of_ascii " ") with [0x20]. change (of_ascii "-") with [0x2D].
  rewrite sub_spaces, (collapse_fixed _ _ out H20 Hsp).
  rewrite sub_plus, collapse_fixed.
  - apply strip_with_fixed. exact Hends.
  - apply Forall_forall. intros c _ E. apply N.eqb_eq in E. symmetry.
    exact E.
  - exact Hhy.
Qed.

(** ** Data frames *)

Import Polars.

Lemma get_with_column_same (df : dataframe) (n : string) (s : series) :
  get_column (with_column df n s) n = Some s.
Proof.
  induction df as [|[m old] df IH]; simpl.
  - rewrite String.eqb_refl. reflexivity.
  - destruct (String.eqb m n) eqn:E; simpl; rewrite E; [reflexivity|exact IH].
Qed.

Lemma get_with_column_other (df : dataframe) (n m : string) (s : series) :
  m <> n -> get_column (with_column df n s) m = get_column df m.
Proof.
  intros Hm. induction df as [|[k old] df IH]; simpl.
  - destruct (String.eqb_spec n m); [congruence | reflexivity].
  - destruct (String.eqb_spec k n) as [->|]; simpl.
    + destruct (String.eqb_spec n m); [congruence | reflexivity].
    + rewrite IH. reflexivity.
Qed.

Lemma columns_with_column (df : dataframe) (n : string) (s : series) :
  columns (with_column df n s) =
  columns df ++ (if existsb (String.eqb n) (columns df) then [] else [n]).
Proof.
  unfold columns. induction df as [|[k old] df IH]; [reflexivity|].
  simpl. rewrite (String.eqb_sym n k).
  destruct (String.eqb k n); simpl; [rewrite app_nil_r; reflexivity|].
  rewrite IH. reflexivity.
Qed.

Lemma map_elements_map (f : pyval -> pyval) (s : series) :
  f PyNone = PyNone -> map_elements f s = map f s.
Proof.
  intros H. unfold map_elements. apply map_ext. intros [ | | | | ]; auto.
Qed.

(** What the two added columns hold and what the other columns keep. *)
Lemma add_normalized_columns_spec (df df' : dataframe) :
  add_normalized_columns df = Some df' ->
  exists names,
    get_column df "prenom" = Some names
    /\ get_column df' "prenom_accent_normalized"
       = Some (map normalize_name_accent names)
    /\ get_column df' "prenom_phonetic_normalized"
       = Some (map normalize_name_phonetic names)
    /\ (forall c, c <> "prenom_accent_normalized"%string ->
                  c <> "prenom_phonetic_normalized"%string ->
                  get_column df' c = get_column df c)
    /\ columns df' =
       columns df ++
       filter (fun n => negb (existsb (String.eqb n) (columns df)))
              ["prenom_accent_normalized"; "prenom_phonetic_normalized"]%string.
Proof.
  unfold add_normalized_columns, add_column_to_dataframe.
  destruct (get_column df "prenom") as [names|] eqn:N; [|discriminate].
  destruct (is_utf8 names); [|discriminate].
  rewrite get_with_column_other, N by discriminate.
  destruct (is_utf8 names); [|discriminate].
  intros [= <-]. exists names. rewrite !map_elements_map by reflexivity.
  split; [reflexivity|]. split; [|split; [|split]].
  - rewrite get_with_column_other by discriminate.
    apply get_with_column_same.
  - apply get_with_column_same.
  - intros c Ha Hp. rewrite !get_with_column_other by assumption.
    reflexivity.
  - rewrite !columns_with_column, existsb_app. cbn [filter].
    destruct (existsb (String.eqb "prenom_accent_normalized") (columns df));
      destruct (existsb (String.eqb "prenom_phonetic_normalized") (columns df));
      cbn [negb existsb orb app String.eqb Ascii.eqb Bool.eqb andb];
      rewrite <- ?app_assoc, ?app_nil_r; reflexivity.
Qed.

(** C1: a text on which phonetic folding is not idempotent.  "aha" folds to
    "aa", which folds to "a". *)
Lemma phonetic_not_idempotent :
  normalize_name_phonetic (normalize_name_phonetic (PyStr (of_ascii "aha")))
  <> normalize_name_phonetic (PyStr (of_ascii "aha")).
Proof. vm_compute. discriminate. Qed.

(** C1, amended.  Phonetic folding of its own output returns that output
    whenever, in the output, no character is doubled, no "ck" or "qu"
    occurs and the text ends neither in "ard" nor in "ie": the rules that
    removing "h", replacing "ph", "ck", "qu" or stripping the ends can
    re-enable. *)
Theorem phonetic_idempotent_when_settled (s out : str) :
  normalize_name_phonetic (PyStr s) = PyStr out ->
  free_of Re.Repeat out = true ->
  free_of (Re.LitEnd (of_ascii "ard")) out = true ->
  free_of (Re.Alt (of_ascii "ck") (of_ascii "qu")) out = true ->
  free_of (Re.LitEnd (of_ascii "ie")) out = true ->
  normalize_name_phonetic (PyStr out) = PyStr out.
Proof.
  rewrite normalize_name_phonetic_str. intros [= E].
  destruct (phonetic_output_facts s) as (F1 & F2 & F3).
  destruct (phonetic_rules_shape (map deaccent (strip (Unicode.lower s))))
    as (S1 & S2 & S3 & S4 & S5).
  cbv zeta in *. rewrite E in *.
  apply settled_fixed; assumption.
Qed.

Lemma phonetic_idempotent_when_settled_witness :
  normalize_name_phonetic (PyStr (of_ascii "sofi")) = PyStr (of_ascii "sofi").
Proof.
  apply (phonetic_idempotent_when_settled (of_ascii "Sophie") (of_ascii "sofi"));
    vm_compute; reflexivity.
Defined.

(** C2: an accent-folded name with a character outside [a-z], space and
    hyphen. *)
Lemma accent_output_outside_alphabet :
  normalize_name_accent (PyStr (of_ascii "M'Hamed")) = PyStr (of_ascii "m'hamed")
  /\ forallb in_alphabet (of_ascii "m'hamed") = false.
Proof. split; vm_compute; reflexivity. Qed.

(** C2, amended.  The accent folding of a string is lowercase (lower-casing
    it changes nothing), has no whitespace at either end and none of the
    accented characters of the patterns; each of its characters is a
    character of the lower-cased input or one of the letters a, e, i, o, u,
    y, c, n; and it has at most as many distinct characters as the
    lower-cased, stripped input. *)
Theorem accent_output (s : str) :
  exists out,
    normalize_name_accent (PyStr s) = PyStr out
    /\ Unicode.lower out = out
    /\ ends_ok Unicode.isspace out = true
    /\ Forall (fun c => mem c accented = false) out
    /\ (forall c, In c out -> In c (Unicode.lower s) \/ In c base_letters)
    /\ (distinct_chars out <= distinct_chars (strip (Unicode.lower s)))%nat.
Proof.
  rewrite normalize_name_accent_str. eexists. split; [reflexivity|].
  split; [|split; [|split; [|split]]].
  - apply accent_output_fixed.
  - apply ends_ok_deaccent, strip_with_ends.
  - apply Forall_forall. intros c Hc. apply in_map_iff in Hc.
    destruct Hc as (c0 & <- & _). apply deaccent_plain.
  - intros c Hc. apply in_map_iff in Hc. destruct Hc as (c0 & <- & Hc).
    destruct (deaccent_cases c0) as [->|H].
    + left. exact (strip_with_In _ _ _ Hc).
    + right. apply mem_In. exact H.
  - apply nodup_map_length.
Qed.

(** C4. Folding only merges values: a column of accent-folded names has at
    most as many distinct values as the names, a column of phonetic-folded
    names at most as many as the accent-folded one, and every reduction
    that [print_statistics] reports for the two added columns is
    non-negative. *)
Theorem folding_only_merges :
  (forall names : series,
      (n_unique (map normalize_name_accent names) <= n_unique names)%Z
      /\ (n_unique (map normalize_name_phonetic names)
          <= n_unique (map normalize_name_accent names))%Z)
  /\ (forall (df df' : dataframe) (original_unique : Z)
             (rows : list (string * Z * Z)),
         add_normalized_columns df = Some df' ->
         print_statistics
           df' (Some ["prenom_accent_normalized";
                      "prenom_phonetic_normalized"]%string)
         = Some (original_unique, rows) ->
         Forall (fun row => (0 <= snd row)%Z) rows).
Proof.
  split.
  - intros names. split; [apply n_unique_map|].
    rewrite (map_ext _ _ phonetic_factors), <- map_map. apply n_unique_map.
  - intros df df' orig rows Hadd.
    destruct (add_normalized_columns_spec df df' Hadd)
      as (names & N & A & P & K & _).
    unfold print_statistics.
    rewrite (K "prenom"%string) by discriminate. rewrite N.
    cbn [flat_map]. rewrite A, P. intros [= _ <-]. cbn [app].
    repeat constructor; cbn [snd].
    + pose proof (n_unique_map normalize_name_accent names). lia.
    + pose proof (n_unique_map normalize_name_phonetic names). lia.
Qed.

Lemma folding_only_merges_witness :
  Forall (fun row : string * Z * Z => (0 <= snd row)%Z)
         [("prenom_accent_normalized"%string, 1%Z, 1%Z);
          ("prenom_phonetic_normalized"%string, 1%Z, 1%Z)].
Proof.
  apply (proj2 folding_only_merges
               [("prenom"%string,
                 [PyStr (of_ascii "Lea"); PyStr (of_ascii "lea")])]
               [("prenom"%string,
                 [PyStr (of_ascii "Lea"); PyStr (of_ascii "lea")]);
                ("prenom_accent_normalized"%string,
                 [PyStr (of_ascii "lea"); PyStr (of_ascii "lea")]);
                ("prenom_phonetic_normalized"%string,
                 [PyStr (of_ascii "lea"); PyStr (of_ascii "lea")])]
               2%Z);
    vm_compute; reflexivity.
Defined.

(** C8: a frame that already has a column named [prenom_accent_normalized]
    does not keep its values. *)
Lemma existing_column_overwritten :
  let df := [("prenom"%string, [PyStr (of_ascii "Lea")]);
             ("prenom_accent_normalized"%string, [PyStr (of_ascii "kept")])] in
  exists df',
    add_normalized_columns df = Some df'
    /\ get_column df "prenom_accent_normalized"
       = Some [PyStr (of_ascii "kept")]
    /\ get_column df' "prenom_accent_normalized"
       = Some [PyStr (of_ascii "lea")].
Proof. eexists. repeat split; vm_compute; reflexivity. Qed.

(** C8, amended.  When the two columns are added, every column of another
    name keeps its cells, in row order; the two columns hold the folded
    names row by row; the columns keep their order, and a new name is
    appended after them.  A column that already had one of the two names is
    replaced. *)
Theorem added_columns_frame (df df' : dataframe) :
  add_normalized_columns df = Some df' ->
  exists names,
    get_column df "prenom" = Some names
    /\ get_column df' "prenom_accent_normalized"
       = Some (map normalize_name_accent names)
    /\ get_column df' "prenom_phonetic_normalized"
       = Some (map normalize_name_phonetic names)
    /\ (forall c, c <> "prenom_accent_normalized"%string ->
                  c <> "prenom_phonetic_normalized"%string ->
                  get_column df' c = get_column df c)
    /\ columns df' =
       columns df ++
       filter (fun n => negb (existsb (String.eqb n) (columns df)))
              ["prenom_accent_normalized"; "prenom_phonetic_normalized"]%string.
Proof. apply add_normalized_columns_spec. Qed.

(** C9, on the code: the accent patterns of
    [create_accent_agnostic_parquet.py] do not match the accented letters;
    "Léa" keeps its accent there and loses it in [process_data.py]. *)
Theorem accent_agnostic_keeps_accents :
  AccentAgnostic.normalize_name_accent_agnostic
    (PyStr (of_ascii "L" ++ [0xE9] ++ of_ascii "a"))
  = PyStr (of_ascii "l" ++ [0xE9] ++ of_ascii "a")
  /\ normalize_name_accent (PyStr (of_ascii "L" ++ [0xE9] ++ of_ascii "a"))
     = PyStr (of_ascii "lea").
Proof. split; vm_compute; reflexivity. Qed.

Lemma added_columns_frame_witness :
  exists names,
    get_column [("prenom"%string, [PyStr (of_ascii "Marie"); PyNone]);
                ("annee"%string, [PyInt 2020; PyInt 2021])] "prenom"
    = Some names
    /\ get_column
         [("prenom"%string, [PyStr (of_ascii "Marie"); PyNone]);
          ("annee"%string, [PyInt 2020; PyInt 2021]);
          ("prenom_accent_normalized"%string,
           [PyStr (of_ascii "marie"); PyNone]);
          ("prenom_phonetic_normalized"%string,
           [PyStr (of_ascii "mari"); PyNone])]
         "prenom_accent_normalized"
       = Some (map normalize_name_accent names)
    /\ get_column
         [("prenom"%string, [PyStr (of_ascii "Marie"); PyNone]);
          ("annee"%string, [PyInt 2020; PyInt 2021]);
          ("prenom_accent_normalized"%string,
           [PyStr (of_ascii "marie"); PyNone]);
          ("prenom_phonetic_normalized"%string,
           [PyStr (of_ascii "mari"); PyNone])]
         "prenom_phonetic_normalized"
       = Some (map normalize_name_phonetic names)
    /\ (forall c, c <> "prenom_accent_normalized"%string ->
                  c <> "prenom_phonetic_normalized"%string ->
                  get_column
                    [("prenom"%string, [PyStr (of_ascii "Marie"); PyNone]);
                     ("annee"%string, [PyInt 2020; PyInt 2021]);
                     ("prenom_accent_normalized"%string,
                      [PyStr (of_ascii "marie"); PyNone]);
                     ("prenom_phonetic_normalized"%string,
                      [PyStr (of_ascii "mari"); PyNone])] c
                  = get_column
                      [("prenom"%string, [PyStr (of_ascii "Marie"); PyNone]);
                       ("annee"%string, [PyInt 2020; PyInt 2021])] c)
    /\ columns
         [("prenom"%string, [PyStr (of_ascii "Marie"); PyNone]);
          ("annee"%string, [PyInt 2020; PyInt 2021]);
          ("prenom_accent_normalized"%string,
           [PyStr (of_ascii "marie"); PyNone]);
          ("prenom_phonetic_normalized"%string,
           [PyStr (of_ascii "mari"); PyNone])]
       = columns [("prenom"%string, [PyStr (of_ascii "Marie"); PyNone]);
                  ("annee"%string, [PyInt 2020; PyInt 2021])]
         ++ filter
              (fun n =>
                 negb (existsb (String.eqb n)
                         (columns
                            [("prenom"%string,
                              [PyStr (of_ascii "Marie"); PyNone]);
                             ("annee"%string, [PyInt 2020; PyInt 2021])])))
              ["prenom_accent_normalized"; "prenom_phonetic_normalized"]%string.
Proof.
  apply (added_columns_frame
           [("prenom"%string, [PyStr (of_ascii "Marie"); PyNone]);
            ("annee"%string, [PyInt 2020; PyInt 2021])]).
  vm_compute. reflexivity.
Defined.

(** * Further properties of the scripts *)

(** ** The folding functions *)

(** [normalize_name] of [create_similar_names_parquet.py], which folds the
    accents itself, returns for every value what
    [normalize_name_phonetic] of [process_data.py] returns. *)
Theorem similar_names_is_phonetic (v : pyval) :
  SimilarNames.normalize_name v = normalize_name_phonetic v.
Proof.
  destruct v as [ |b|z|b|[|c s]];
    try (unfold SimilarNames.normalize_name, normalize_name_phonetic;
         cbn [isinstance_str negb]; rewrite orb_true_r; reflexivity).
  - reflexivity.
  - reflexivity.
Qed.

Lemma run_length_skipn_hd (f : char -> bool) (s : str) :
  hd_ok f (skipn (Re.run_length f s) s) = true.
Proof.
  induction s as [|c s IH]; [reflexivity|].
  cbn [Re.run_length]. destruct (f c) eqn:E; [exact IH|].
  simpl. rewrite E. reflexivity.
Qed.

Lemma sub_repeat_hd (s : str) :
  hd_error (Re.sub Re.Repeat Re.Group1 s) = hd_error s.
Proof.
  destruct s as [|c rest]; [reflexivity|].
  rewrite sub_cons. cbn [Re.match_at].
  destruct (c =? 0xA); [reflexivity|].
  destruct (Re.run_length (N.eqb c) rest); reflexivity.
Qed.

(** After the rule [(.)\1+] no character is followed by itself, line feeds
    apart: a run of any length is reduced to one character in one pass. *)
Theorem repetitions_collapsed (s : str) :
  adjacent (fun a b => (a =? b) && negb (a =? 0xA))
           (Re.sub Re.Repeat Re.Group1 s) = false.
Proof.
  remember (length s) as n eqn:Hn. revert s Hn.
  induction n as [n IH] using lt_wf_ind. intros [|c rest] Hn; [reflexivity|].
  rewrite sub_cons. cbn [Re.match_at].
  destruct (N.eqb_spec c 0xA) as [->|Hc].
  - rewrite adjacent_cons.
    rewrite (IH (length rest)) by (simpl in Hn; lia || reflexivity).
    destruct (hd_error _); [rewrite andb_false_r|]; reflexivity.
  - destruct (Re.run_length (N.eqb c) rest) as [|k] eqn:K.
    + rewrite adjacent_cons, sub_repeat_hd.
      rewrite (IH (length rest)) by (simpl in Hn; lia || reflexivity).
      pose proof (run_length_skipn_hd (N.eqb c) rest) as H. rewrite K in H.
      simpl in H. destruct rest as [|d rest']; [reflexivity|].
      simpl in *. apply negb_true_iff in H. rewrite H. reflexivity.
    + cbn [Re.expand app]. rewrite adjacent_cons, sub_repeat_hd.
      rewrite (IH (length (skipn (S k) rest)))
        by (try reflexivity; rewrite length_skipn; simpl in Hn; lia).
      pose proof (run_length_skipn_hd (N.eqb c) rest) as H. rewrite K in H.
      destruct (skipn (S k) rest) as [|d tail]; [reflexivity|].
      simpl in *. apply negb_true_iff in H. rewrite H. reflexivity.
Qed.

Lemma accent_fixed_value (v : pyval) :
  normalize_name_accent (normalize_name_accent v) = normalize_name_accent v.
Proof.
  destruct v as [ |b|z|b|s];
    try (unfold normalize_name_accent;
         cbn [isinstance_str negb]; rewrite orb_true_r;
         cbn [isinstance_str negb]; rewrite orb_true_r; reflexivity).
  rewrite !normalize_name_accent_str.
  destruct (accent_output_fixed s) as (L & S & D). cbv zeta in *.
  rewrite L, S, D. reflexivity.
Qed.

(** Phonetic folding does not see case, outer whitespace or accents: the
    phonetic folding of the accent-folded value is the phonetic folding of
    the value. *)
Theorem phonetic_after_accent (v : pyval) :
  normalize_name_phonetic (normalize_name_accent v) = normalize_name_phonetic v.
Proof.
  rewrite !phonetic_factors, accent_fixed_value. reflexivity.
Qed.

(** The phonetic folding of a string is lowercase, has none of the accented
    letters and no "y", and its only whitespace character is the space. *)
Theorem phonetic_output_alphabet (s : str) :
  exists out,
    normalize_name_phonetic (PyStr s) = PyStr out
    /\ Unicode.lower out = out
    /\ Forall (fun c => mem c accented = false) out
    /\ mem 0x79 out = false
    /\ Forall (fun c => Unicode.isspace c = true -> c = 0x20) out.
Proof.
  rewrite normalize_name_phonetic_str. eexists. split; [reflexivity|].
  destruct (phonetic_output_facts s) as (F1 & F2 & F3).
  destruct (phonetic_rules_shape (map deaccent (strip (Unicode.lower s))))
    as (_ & _ & _ & S4 & _).
  cbv zeta in *. repeat split.
  - apply lower_fixed. apply Forall_forall. exact F1.
  - exact F2.
  - apply Forall_not_mem. exact F3.
  - exact S4.
Qed.

(** ** Lengths *)

Lemma starts_with_length (w s : str) :
  Re.starts_with w s = true -> (length w <= length s)%nat.
Proof.
  revert s; induction w as [|a w IH]; intros [|b s]; simpl; try lia;
    try discriminate.
  rewrite andb_true_iff. intros [_ H]. specialize (IH s H). lia.
Qed.

Lemma run_length_le (f : char -> bool) (s : str) :
  (Re.run_length f s <= length s)%nat.
Proof.
  induction s as [|c s IH]; simpl; [lia|]. destruct (f c); lia.
Qed.

(** A match lies within the text, is at least [min_match] long, and its
    replacement is at most [max_expand] long. *)
Lemma match_at_bounds (p : Re.pattern) (t : Re.template) (s g : str)
      (n : nat) :
  Re.match_at p s = Some (n, g) ->
  (n <= length s /\ min_match p <= n
   /\ length (Re.expand t g) <= max_expand p t)%nat.
Proof.
  destruct p; simpl.
  - destruct (Re.starts_with w s) eqn:E; [|discriminate]. intros [= <- <-].
    apply starts_with_length in E. destruct t; simpl; lia.
  - destruct s as [|c s]; [discriminate|].
    destruct (mem c cs); [|discriminate]. intros [= <- <-].
    destruct t; simpl; lia.
  - destruct (Re.starts_with w1 s) eqn:E1.
    + intros [= <- <-]. apply starts_with_length in E1.
      destruct t; simpl; lia.
    + destruct (Re.starts_with w2 s) eqn:E2; [|discriminate].
      intros [= <- <-]. apply starts_with_length in E2.
      destruct t; simpl; lia.
  - destruct s as [|c s]; [discriminate|].
    destruct (c =? 0xA); [discriminate|].
    pose proof (run_length_le (N.eqb c) s).
    destruct (Re.run_length (N.eqb c) s); [discriminate|].
    intros [= <- <-]. destruct t; simpl; lia.
  - destruct (Re.starts_with w s) eqn:E; [|discriminate]. simpl.
    destruct (Re.at_end _); [|discriminate]. intros [= <- <-].
    apply starts_with_length in E. destruct t; simpl; lia.
  - pose proof (run_length_le Unicode.isspace s).
    destruct (Re.run_length Unicode.isspace s); [discriminate|].
    intros [= <- <-]. destruct t; simpl; lia.
  - pose proof (run_length_le (N.eqb c) s).
    destruct (Re.run_length (N.eqb c) s); [discriminate|].
    intros [= <- <-]. destruct t; simpl; lia.
Qed.

(** A substitution whose replacements are no longer than its matches does
    not lengthen the text. *)
Lemma sub_length (p : Re.pattern) (t : Re.template) (s : str) :
  (max_expand p t <=? min_match p)%nat = true ->
  (length (Re.sub p t s) <= length s)%nat.
Proof.
  intros B. apply Nat.leb_le in B.
  remember (length s) as n eqn:Hn. revert s Hn.
  induction n as [n IH] using lt_wf_ind. intros [|c rest] Hn; [simpl; lia|].
  rewrite sub_cons.
  destruct (Re.match_at p (c :: rest)) as [[[|m] g]|] eqn:M; simpl in Hn.
  - simpl. specialize (IH (length rest) ltac:(lia) rest eq_refl). lia.
  - destruct (match_at_bounds p t _ _ _ M) as (L1 & L2 & L3). simpl in L1.
    rewrite length_app.
    assert (L : (length (skipn m rest) < n)%nat)
      by (rewrite length_skipn; lia).
    specialize (IH _ L _ eq_refl). rewrite length_skipn in IH. lia.
  - simpl. specialize (IH (length rest) ltac:(lia) rest eq_refl). lia.
Qed.

(** It shortens the text when the replacements are shorter than the
    matches and there is a match. *)
Lemma sub_shorter (p : Re.pattern) (t : Re.template) (s : str) :
  (max_expand p t <? min_match p)%nat = true ->
  free_of p s = false ->
  (length (Re.sub p t s) < length s)%nat.
Proof.
  intros B. apply Nat.ltb_lt in B.
  induction s as [|c rest IH]; [discriminate|].
  rewrite sub_cons. cbn [free_of].
  destruct (Re.match_at p (c :: rest)) as [[[|m] g]|] eqn:M; intros F.
  - simpl. specialize (IH F). lia.
  - destruct (match_at_bounds p t _ _ _ M) as (L1 & L2 & L3). simpl in L1.
    rewrite length_app.
    assert (L : (length (Re.sub p t (skipn m rest))
                 <= length (skipn m rest))%nat).
    { apply sub_length. apply Nat.leb_le. lia. }
    rewrite length_skipn in L. simpl. lia.
  - simpl. specialize (IH F). lia.
Qed.

Lemma strip_with_length (f : char -> bool) (s : str) :
  (length (strip_with f s) <= length s)%nat.
Proof.
  destruct (strip_with_split f s) as (pre & post & E).
  rewrite E at 2. rewrite !length_app. lia.
Qed.

Ltac chain_le :=
  repeat first
    [ apply Nat.le_refl
    | eapply Nat.le_trans; [apply strip_with_length|]
    | eapply Nat.le_trans; [apply sub_length; reflexivity|] ].

Lemma phonetic_rules_length (x : str) :
  (length (phonetic_rules x) <= length x)%nat.
Proof. unfold phonetic_rules, strip_chars. cbv zeta. chain_le. Qed.

(** Phonetic folding returns a text no longer than the lower-cased
    name. *)
Theorem phonetic_never_longer (s : str) :
  exists out,
    normalize_name_phonetic (PyStr s) = PyStr out
    /\ (length out <= length (Unicode.lower s))%nat.
Proof.
  rewrite normalize_name_phonetic_str. eexists. split; [reflexivity|].
  eapply Nat.le_trans; [apply phonetic_rules_length|].
  rewrite length_map. apply strip_with_length.
Qed.

(** The rules applied to a text with the shape of an output either
    change nothing or return a strictly shorter text. *)
Lemma second_pass (out : str) :
  Forall (fun c => mem c [0x79] = false) out ->
  mem 0x68 out = false ->
  ends_ok (fun c => mem c (of_ascii "- ")) out = true ->
  adjacent (fun a b => Unicode.isspace a && Unicode.isspace b) out = false ->
  Forall (fun c => Unicode.isspace c = true -> c = 0x20) out ->
  adjacent (fun a b => (0x2D =? a) && (0x2D =? b)) out = false ->
  phonetic_rules out = out
  \/ (length (phonetic_rules out) < length out)%nat.
Proof.
  intros Hy Hh Hends Hsp H20 Hhy.
  unfold phonetic_rules, strip_chars. cbv zeta.
  assert (E1 : Re.sub (Re.Lit (of_ascii "y")) (Re.Text (of_ascii "i")) out
               = out).
  { change (of_ascii "y") with [0x79]. rewrite sub_lit1.
    apply replace_chars_fixed. exact Hy. }
  rewrite E1.
  destruct (free_of Re.Repeat out) eqn:R1;
    [| right; eapply Nat.le_lt_trans;
       [| apply (sub_shorter Re.Repeat Re.Group1 out eq_refl R1)];
       chain_le ].
  rewrite (sub_free Re.Repeat Re.Group1 out R1).
  destruct (free_of (Re.LitEnd (of_ascii "ard")) out) eqn:R2;
    [| right; eapply Nat.le_lt_trans;
       [| apply (sub_shorter (Re.LitEnd (of_ascii "ard"))
                            (Re.Text (of_ascii "ar")) out eq_refl R2)];
       chain_le ].
  rewrite (sub_free _ (Re.Text (of_ascii "ar")) out R2).
  assert (E4 : Re.sub (Re.Lit (of_ascii "ph")) (Re.Text (of_ascii "f")) out
               = out).
  { apply sub_free. apply (free_of_lit2 0x70 0x68). exact Hh. }
  rewrite E4.
  destruct (free_of (Re.Alt (of_ascii "ck") (of_ascii "qu")) out) eqn:R3;
    [| right; eapply Nat.le_lt_trans;
       [| apply (sub_shorter (Re.Alt (of_ascii "ck") (of_ascii "qu"))
                            (Re.Text (of_ascii "k")) out eq_refl R3)];
       chain_le ].
  rewrite (sub_free _ (Re.Text (of_ascii "k")) out R3).
  destruct (free_of (Re.LitEnd (of_ascii "ie")) out) eqn:R4;
    [| right; eapply Nat.le_lt_trans;
       [| apply (sub_shorter (Re.LitEnd (of_ascii "ie"))
                            (Re.Text (of_ascii "i")) out eq_refl R4)];
       chain_le ].
  rewrite (sub_free _ (Re.Text (of_ascii "i")) out R4).
  left.
  assert (E7 : Re.sub (Re.Lit (of_ascii "h")) (Re.Text []) out = out).
  { change (of_ascii "h") with [0x68]. rewrite sub_lit1.
    apply replace_chars_fixed. apply not_mem_Forall. exact Hh. }
  rewrite E7.
  change (of_ascii " ") with [0x20]. change (of_ascii "-") with [0x2D].
  rewrite sub_spaces, (collapse_fixed _ _ out H20 Hsp).
  rewrite sub_plus, collapse_fixed.
  - apply strip_with_fixed. exact Hends.
  - apply Forall_forall. intros c _ E. apply N.eqb_eq in E. symmetry.
    exact E.
  - exact Hhy.
Qed.

(** Folding the output of phonetic folding again either returns it
    unchanged or returns a strictly shorter text, so that repeated folding
    reaches a fixed point. *)
Theorem refolding_shrinks (s : str) :
  exists out out',
    normalize_name_phonetic (PyStr s) = PyStr out
    /\ normalize_name_phonetic (PyStr out) = PyStr out'
    /\ (out' = out \/ (length out' < length out)%nat).
Proof.
  rewrite normalize_name_phonetic_str.
  set (out := phonetic_rules (map deaccent (strip (Unicode.lower s)))).
  exists out, (phonetic_rules out). split; [reflexivity|].
  destruct (phonetic_output_facts s) as (F1 & F2 & F3).
  destruct (phonetic_rules_shape (map deaccent (strip (Unicode.lower s))))
    as (S1 & S2 & S3 & S4 & S5).
  cbv zeta in *. fold out in F1, F2, F3, S1, S2, S3, S4, S5.
  split.
  - rewrite normalize_name_phonetic_str.
    rewrite (lower_fixed out) by (apply Forall_forall; exact F1).
    unfold strip.
    rewrite (strip_with_fixed _ out (ends_ok_space out S4 S2)).
    rewrite (map_deaccent_fixed out F2). reflexivity.
  - apply second_pass; assumption.
Qed.

(** ** Columns of a frame *)

Lemma get_column_None (df : dataframe) (n : string) :
  get_column df n = None <-> ~ In n (columns df).
Proof.
  unfold columns. induction df as [|[k s] df IH]; simpl; [tauto|].
  destruct (String.eqb_spec k n) as [->|Hk].
  - split; [discriminate | intros H; exfalso; apply H; left; reflexivity].
  - rewrite IH. tauto.
Qed.

Lemma get_column_Some (df : dataframe) (n : string) (s : series) :
  get_column df n = Some s -> In (n, s) df.
Proof.
  induction df as [|[k old] df IH]; simpl; [discriminate|].
  destruct (String.eqb_spec k n) as [->|Hk].
  - intros [= ->]. left. reflexivity.
  - intros H. right. apply IH. exact H.
Qed.

Lemma existsb_eqb_In (n : string) (l : list string) :
  existsb (String.eqb n) l = true <-> In n l.
Proof.
  rewrite existsb_exists. split.
  - intros (x & Hx & E). apply String.eqb_eq in E. subst. exact Hx.
  - intros H. exists n. split; [exact H | apply String.eqb_refl].
Qed.

Lemma get_column_map (g : series -> series) (df : dataframe) (n : string) :
  get_column (map (fun c => (fst c, g (snd c))) df) n
  = option_map g (get_column df n).
Proof.
  induction df as [|[k s] df IH]; [reflexivity|]. simpl.
  destruct (String.eqb k n); [reflexivity | exact IH].
Qed.

Lemma get_column_filter (P : string -> bool) (df : dataframe) (n : string) :
  get_column (filter (fun c => P (fst c)) df) n
  = if P n then get_column df n else None.
Proof.
  induction df as [|[k s] df IH]; simpl; [destruct (P n); reflexivity|].
  destruct (P k) eqn:Pk; simpl; destruct (String.eqb_spec k n) as [->|Hk].
  - rewrite Pk. reflexivity.
  - exact IH.
  - rewrite Pk in *. exact IH.
  - exact IH.
Qed.

Lemma columns_filter (P : string -> bool) (df : dataframe) :
  columns (filter (fun c => P (fst c)) df) = filter P (columns df).
Proof.
  unfold columns. induction df as [|[k s] df IH]; [reflexivity|]. simpl.
  destruct (P k); simpl; rewrite IH; reflexivity.
Qed.

Lemma columns_map (g : series -> series) (df : dataframe) :
  columns (map (fun c => (fst c, g (snd c))) df) = columns df.
Proof. unfold columns. rewrite map_map. reflexivity. Qed.

(** The cells kept by a mask are those of the rows the mask selects. *)
Lemma keep_rows (f : pyval -> bool) (levels col : series) :
  keep (map f levels) col
  = map snd (filter (fun row => f (fst row)) (combine levels col)).
Proof.
  revert col; induction levels as [|l levels IH]; intros [|v col];
    try reflexivity.
  simpl. destruct (f l); simpl; rewrite IH; reflexivity.
Qed.

Lemma length_keep (mask : list bool) (s : series) :
  length mask = length s ->
  length (keep mask s) = length (filter (fun b => b) mask).
Proof.
  revert s; induction mask as [|b mask IH]; intros [|v s]; simpl;
    try reflexivity; try discriminate.
  intros [= H]. destruct b; simpl; rewrite (IH s H); reflexivity.
Qed.

Lemma filter_map_cells (P : string -> bool) (g : series -> series)
      (df : dataframe) :
  filter (fun c => P (fst c)) (map (fun c => (fst c, g (snd c))) df)
  = map (fun c => (fst c, g (snd c))) (filter (fun c => P (fst c)) df).
Proof.
  induction df as [|[k s] df IH]; [reflexivity|]. cbn [map filter fst snd].
  destruct (P k); cbn [map fst snd]; rewrite IH; reflexivity.
Qed.

(** What [load_and_filter_data] returns and when it raises. *)
Lemma load_and_filter_data_eq (df : dataframe) :
  load_and_filter_data df =
  match get_column df "prenom" with
  | None => None
  | Some _ =>
      match get_column df "niveau_geographique" with
      | None => None
      | Some levels =>
          if existsb (String.eqb "geographie") (columns df)
          then Some (map (fun c => (fst c, keep (map is_france levels) (snd c)))
                         (filter (fun c => negb (existsb (String.eqb (fst c))
                                                         geography)) df))
          else None
      end
  end.
Proof.
  unfold load_and_filter_data, filter_eq, drop.
  destruct (get_column df "prenom") as [names|] eqn:N; [|reflexivity].
  destruct (get_column df "niveau_geographique") as [levels|] eqn:L;
    [|reflexivity].
  cbv zeta.
  rewrite (get_column_map (keep _) df), N. cbn [option_map].
  rewrite (columns_map (keep _) df). cbn [forallb].
  assert (E : existsb (String.eqb "niveau_geographique") (columns df) = true).
  { apply existsb_eqb_In. destruct (in_dec string_dec "niveau_geographique"%string
                                           (columns df)) as [H|H]; [exact H|].
    apply get_column_None in H. congruence. }
  rewrite E. cbn [andb]. rewrite andb_true_r.
  destruct (existsb (String.eqb "geographie") (columns df)); [|reflexivity].
  rewrite (get_column_filter
             (fun n => negb (existsb (String.eqb n)
                               ["niveau_geographique"; "geographie"]%string))).
  change (negb (existsb (String.eqb "prenom")
                        ["niveau_geographique"; "geographie"]%string))
    with true.
  cbv iota. rewrite (get_column_map (keep _) df), N. cbn [option_map].
  f_equal. apply (filter_map_cells (fun n => negb (existsb (String.eqb n) _))).
Qed.

(** ** [load_and_filter_data] *)

(** [load_and_filter_data] raises when the frame lacks the name column
    [prenom] or one of the two geography columns; when the three columns
    are there and the level column is a string column, it returns a
    frame. *)
Theorem load_and_filter_data_raises (df : dataframe) :
  (~ In "prenom"%string (columns df)
   \/ ~ In "niveau_geographique"%string (columns df)
   \/ ~ In "geographie"%string (columns df) ->
   load_and_filter_data df = None)
  /\ (forall levels,
         In "prenom"%string (columns df) ->
         In "geographie"%string (columns df) ->
         get_column df "niveau_geographique" = Some levels ->
         is_utf8 levels = true ->
         exists df', load_and_filter_data df = Some df').
Proof.
  rewrite load_and_filter_data_eq. split.
  - intros H.
    destruct (get_column df "prenom") as [names|] eqn:N; [|reflexivity].
    assert (HN : In "prenom"%string (columns df)).
    { destruct (in_dec string_dec "prenom"%string (columns df)) as [K|K];
        [exact K|]. apply get_column_None in K. congruence. }
    destruct (get_column df "niveau_geographique") as [levels|] eqn:L;
      [|reflexivity].
    assert (HL : In "niveau_geographique"%string (columns df)).
    { destruct (in_dec string_dec "niveau_geographique"%string (columns df))
        as [K|K]; [exact K|]. apply get_column_None in K. congruence. }
    destruct (existsb (String.eqb "geographie") (columns df)) eqn:G;
      [|reflexivity].
    apply existsb_eqb_In in G. tauto.
  - intros levels HN HG L _.
    destruct (get_column df "prenom") as [names|] eqn:N.
    + rewrite L. apply existsb_eqb_In in HG. rewrite HG. eexists. reflexivity.
    + apply get_column_None in N. contradiction.
Qed.

Lemma load_and_filter_data_raises_witness :
  load_and_filter_data
    [("niveau_geographique"%string, [PyStr (of_ascii "FRANCE")]);
     ("geographie"%string, [PyStr (of_ascii "FR")])] = None
  /\ exists df',
      load_and_filter_data
        [("prenom"%string, [PyStr (of_ascii "LEA")]);
         ("niveau_geographique"%string, [PyStr (of_ascii "FRANCE")]);
         ("geographie"%string, [PyStr (of_ascii "FR")])] = Some df'.
Proof.
  split.
  - apply (proj1 (load_and_filter_data_raises
                    [("niveau_geographique"%string,
                      [PyStr (of_ascii "FRANCE")]);
                     ("geographie"%string, [PyStr (of_ascii "FR")])])).
    left. simpl. intuition discriminate.
  - apply (proj2 (load_and_filter_data_raises
                    [("prenom"%string, [PyStr (of_ascii "LEA")]);
                     ("niveau_geographique"%string,
                      [PyStr (of_ascii "FRANCE")]);
                     ("geographie"%string, [PyStr (of_ascii "FR")])])
                 [PyStr (of_ascii "FRANCE")]).
    + simpl. auto.
    + simpl. auto.
    + reflexivity.
    + reflexivity.
Defined.

Lemma load_and_filter_data_spec (df df' : dataframe) :
  load_and_filter_data df = Some df' ->
  exists levels,
    get_column df "niveau_geographique" = Some levels
    /\ columns df'
       = filter (fun n => negb (existsb (String.eqb n) geography)) (columns df)
    /\ (forall c col,
           ~ In c geography ->
           get_column df c = Some col ->
           get_column df' c
           = Some (map snd (filter (fun row => is_france (fst row))
                                   (combine levels col))))
    /\ get_column df' "niveau_geographique" = None
    /\ get_column df' "geographie" = None.
Proof.
  rewrite load_and_filter_data_eq.
  destruct (get_column df "prenom") as [names|]; [|discriminate].
  destruct (get_column df "niveau_geographique") as [levels|]; [|discriminate].
  destruct (existsb (String.eqb "geographie") (columns df)); [|discriminate].
  intros [= <-]. exists levels. split; [reflexivity|].
  split; [|split; [|split]].
  - rewrite columns_map.
    apply (columns_filter (fun n => negb (existsb (String.eqb n) geography))).
  - intros c col Hc Hcol. rewrite get_column_map.
    rewrite (get_column_filter
               (fun n => negb (existsb (String.eqb n) geography))).
    destruct (existsb (String.eqb c) geography) eqn:E.
    + apply existsb_eqb_In in E. contradiction.
    + cbn [negb]. rewrite Hcol. cbn [option_map]. rewrite keep_rows.
      reflexivity.
  - rewrite get_column_map.
    rewrite (get_column_filter
               (fun n => negb (existsb (String.eqb n) geography))).
    reflexivity.
  - rewrite get_column_map.
    rewrite (get_column_filter
               (fun n => negb (existsb (String.eqb n) geography))).
    reflexivity.
Qed.

(** The frame [load_and_filter_data] returns has the columns of the input
    without the two geography columns, in the same order, and in each
    column the cells of the rows whose level is "FRANCE", in row order. *)
Theorem national_rows (df df' : dataframe) :
  load_and_filter_data df = Some df' ->
  exists levels,
    get_column df "niveau_geographique" = Some levels
    /\ columns df'
       = filter (fun n => negb (existsb (String.eqb n) geography)) (columns df)
    /\ (forall c col,
           ~ In c geography ->
           get_column df c = Some col ->
           get_column df' c
           = Some (map snd (filter (fun row => is_france (fst row))
                                   (combine levels col))))
    /\ get_column df' "niveau_geographique" = None
    /\ get_column df' "geographie" = None.
Proof. apply load_and_filter_data_spec. Qed.

Lemma national_rows_witness :
  exists levels,
    get_column
      [("prenom"%string, [PyStr (of_ascii "LEA"); PyStr (of_ascii "LEO")]);
       ("niveau_geographique"%string,
        [PyStr (of_ascii "FRANCE"); PyStr (of_ascii "DEP")]);
       ("geographie"%string, [PyStr (of_ascii "FR"); PyStr (of_ascii "75")])]
      "niveau_geographique" = Some levels
    /\ columns [("prenom"%string, [PyStr (of_ascii "LEA")])]
       = filter (fun n => negb (existsb (String.eqb n) geography))
           (columns
              [("prenom"%string,
                [PyStr (of_ascii "LEA"); PyStr (of_ascii "LEO")]);
               ("niveau_geographique"%string,
                [PyStr (of_ascii "FRANCE"); PyStr (of_ascii "DEP")]);
               ("geographie"%string,
                [PyStr (of_ascii "FR"); PyStr (of_ascii "75")])])
    /\ (forall c col,
           ~ In c geography ->
           get_column
             [("prenom"%string,
               [PyStr (of_ascii "LEA"); PyStr (of_ascii "LEO")]);
              ("niveau_geographique"%string,
               [PyStr (of_ascii "FRANCE"); PyStr (of_ascii "DEP")]);
              ("geographie"%string,
               [PyStr (of_ascii "FR"); PyStr (of_ascii "75")])] c = Some col ->
           get_column [("prenom"%string, [PyStr (of_ascii "LEA")])] c
           = Some (map snd (filter (fun row => is_france (fst row))
                                   (combine levels col))))
    /\ get_column [("prenom"%string, [PyStr (of_ascii "LEA")])]
                  "niveau_geographique" = None
    /\ get_column [("prenom"%string, [PyStr (of_ascii "LEA")])]
                  "geographie" = None.
Proof.
  apply (national_rows
           [("prenom"%string, [PyStr (of_ascii "LEA"); PyStr (of_ascii "LEO")]);
            ("niveau_geographique"%string,
             [PyStr (of_ascii "FRANCE"); PyStr (of_ascii "DEP")]);
            ("geographie"%string,
             [PyStr (of_ascii "FR"); PyStr (of_ascii "75")])]).
  vm_compute. reflexivity.
Defined.

(** ** Well-formed frames *)

Lemma with_column_rectangular (h : nat) (df : dataframe) (n : string)
      (s : series) :
  rectangular h df -> length s = h -> rectangular h (with_column df n s).
Proof.
  unfold rectangular. intros H Hs.
  induction H as [|[k old] df Hk Hdf IH]; simpl.
  - constructor; [exact Hs | constructor].
  - destruct (String.eqb k n); constructor; simpl; assumption.
Qed.

Lemma with_column_NoDup (df : dataframe) (n : string) (s : series) :
  NoDup (columns df) -> NoDup (columns (with_column df n s)).
Proof.
  intros H. rewrite columns_with_column.
  destruct (existsb (String.eqb n) (columns df)) eqn:E.
  - rewrite app_nil_r. exact H.
  - apply NoDup_app; [exact H | repeat constructor; intros [] | ].
    intros x Hx [<-|[]]. apply existsb_eqb_In in Hx. congruence.
Qed.

Lemma add_column_well_formed (h : nat) (df df' : dataframe) (n : string)
      (f : pyval -> pyval) :
  NoDup (columns df) -> rectangular h df ->
  add_column_to_dataframe df n f = Some df' ->
  NoDup (columns df') /\ rectangular h df'.
Proof.
  intros Hn Hr. unfold add_column_to_dataframe.
  destruct (get_column df "prenom") as [names|] eqn:N; [|discriminate].
  destruct (is_utf8 names); [|discriminate]. intros [= <-].
  split; [apply with_column_NoDup; exact Hn|].
  apply with_column_rectangular; [exact Hr|].
  unfold map_elements. rewrite length_map.
  apply get_column_Some in N. unfold rectangular in Hr.
  rewrite Forall_forall in Hr. exact (Hr _ N).
Qed.

(** [process_data] keeps frames well formed: from a frame whose column
    names are distinct and whose columns all have [h] cells it returns a
    frame with distinct column names whose columns all have the same number
    of cells, at most [h]. *)
Theorem process_data_well_formed (h : nat) (input out : dataframe) :
  NoDup (columns input) -> rectangular h input ->
  process_data input = Some out ->
  NoDup (columns out) /\ exists h', (h' <= h)%nat /\ rectangular h' out.
Proof.
  intros Hn Hr. unfold process_data. rewrite load_and_filter_data_eq.
  destruct (get_column input "prenom") as [names0|]; [|discriminate].
  destruct (get_column input "niveau_geographique") as [levels|] eqn:L;
    [|discriminate].
  destruct (existsb (String.eqb "geographie") (columns input));
    [|discriminate].
  set (mask := map is_france levels).
  set (df := map _ _).
  assert (Hl : length mask = h).
  { unfold mask. rewrite length_map. apply get_column_Some in L.
    unfold rectangular in Hr. rewrite Forall_forall in Hr. exact (Hr _ L). }
  assert (Dn : NoDup (columns df)).
  { unfold df. rewrite columns_map.
    rewrite (columns_filter
               (fun n => negb (existsb (String.eqb n) geography))).
    apply NoDup_filter. exact Hn. }
  assert (Dr : rectangular (length (filter (fun b => b) mask)) df).
  { unfold df, rectangular. apply Forall_forall. intros c Hc.
    apply in_map_iff in Hc. destruct Hc as (c0 & <- & Hc0).
    apply filter_In in Hc0. destruct Hc0 as [Hc0 _]. cbn [snd].
    apply length_keep. unfold rectangular in Hr.
    rewrite Forall_forall in Hr. rewrite Hl. symmetry. exact (Hr _ Hc0). }
  unfold add_normalized_columns.
  destruct (add_column_to_dataframe df "prenom_accent_normalized" _)
    as [df1|] eqn:A; [|discriminate].
  destruct (add_column_well_formed _ _ _ _ _ Dn Dr A) as [Dn1 Dr1].
  intros P.
  destruct (add_column_well_formed _ _ _ _ _ Dn1 Dr1 P) as [Dn2 Dr2].
  split; [exact Dn2|]. exists (length (filter (fun b => b) mask)).
  split; [|exact Dr2]. rewrite <- Hl. apply filter_length_le.
Qed.

Lemma process_data_well_formed_witness :
  NoDup (columns
           [("prenom"%string, [PyStr (of_ascii "lea")]);
            ("prenom_accent_normalized"%string, [PyStr (of_ascii "lea")]);
            ("prenom_phonetic_normalized"%string, [PyStr (of_ascii "lea")])])
  /\ exists h',
      (h' <= 2)%nat
      /\ rectangular h'
           [("prenom"%string, [PyStr (of_ascii "lea")]);
            ("prenom_accent_normalized"%string, [PyStr (of_ascii "lea")]);
            ("prenom_phonetic_normalized"%string, [PyStr (of_ascii "lea")])].
Proof.
  apply (process_data_well_formed 2
           [("prenom"%string, [PyStr (of_ascii "lea"); PyStr (of_ascii "leo")]);
            ("niveau_geographique"%string,
             [PyStr (of_ascii "FRANCE"); PyStr (of_ascii "DEP")]);
            ("geographie"%string,
             [PyStr (of_ascii "FR"); PyStr (of_ascii "75")])]).
  - simpl. repeat constructor; simpl; intuition discriminate.
  - repeat constructor.
  - vm_compute. reflexivity.
Defined.

(** ** [process_data] from end to end *)

Lemma process_data_spec (input out : dataframe) :
  process_data input = Some out ->
  exists levels names,
    get_column input "niveau_geographique" = Some levels
    /\ get_column input "prenom" = Some names
    /\ let national :=
         map snd (filter (fun row => is_france (fst row))
                         (combine levels names)) in
       get_column out "prenom" = Some national
       /\ get_column out "prenom_accent_normalized"
          = Some (map normalize_name_accent national)
       /\ get_column out "prenom_phonetic_normalized"
          = Some (map normalize_name_phonetic national)
       /\ get_column out "niveau_geographique" = None
       /\ get_column out "geographie" = None.
Proof.
  unfold process_data.
  destruct (load_and_filter_data input) as [df|] eqn:L; [|discriminate].
  destruct (load_and_filter_data_spec input df L)
    as (levels & Hl & _ & Hc & G1 & G2).
  intros A.
  destruct (add_normalized_columns_spec df out A)
    as (national & N & HA & HP & K & _).
  destruct (get_column input "prenom") as [names|] eqn:Hn.
  - exists levels, names. split; [exact Hl|]. split; [reflexivity|].
    assert (E : get_column df "prenom"
                = Some (map snd (filter (fun row => is_france (fst row))
                                        (combine levels names)))).
    { apply Hc; [|exact Hn]. simpl. intuition discriminate. }
    rewrite N in E. injection E as <-. cbv zeta.
    rewrite (K "prenom"%string), (K "niveau_geographique"%string),
      (K "geographie"%string) by discriminate.
    auto.
  - exfalso. apply get_column_None in Hn. apply Hn.
    assert (I : In "prenom"%string (columns df)).
    { destruct (in_dec string_dec "prenom"%string (columns df)) as [H|H];
        [exact H|]. apply get_column_None in H. congruence. }
    destruct (load_and_filter_data_spec input df L) as (_ & _ & C & _).
    rewrite C in I. apply filter_In in I. apply I.
Qed.

(** When [process_data] succeeds, the frame it saves holds, in order, the
    names of the national rows of the input, their accent folding and
    their phonetic folding, and no geography column. *)
Theorem process_data_result (input out : dataframe) :
  process_data input = Some out ->
  exists levels names,
    get_column input "niveau_geographique" = Some levels
    /\ get_column input "prenom" = Some names
    /\ let national :=
         map snd (filter (fun row => is_france (fst row))
                         (combine levels names)) in
       get_column out "prenom" = Some national
       /\ get_column out "prenom_accent_normalized"
          = Some (map normalize_name_accent national)
       /\ get_column out "prenom_phonetic_normalized"
          = Some (map normalize_name_phonetic national)
       /\ get_column out "niveau_geographique" = None
       /\ get_column out "geographie" = None.
Proof. apply process_data_spec. Qed.

Lemma process_data_result_witness :
  exists levels names,
    get_column
      [("prenom"%string, [PyStr (of_ascii "LEA"); PyStr (of_ascii "LEO")]);
       ("niveau_geographique"%string,
        [PyStr (of_ascii "FRANCE"); PyStr (of_ascii "DEP")]);
       ("geographie"%string, [PyStr (of_ascii "FR"); PyStr (of_ascii "75")])]
      "niveau_geographique" = Some levels
    /\ get_column
         [("prenom"%string, [PyStr (of_ascii "LEA"); PyStr (of_ascii "LEO")]);
          ("niveau_geographique"%string,
           [PyStr (of_ascii "FRANCE"); PyStr (of_ascii "DEP")]);
          ("geographie"%string,
           [PyStr (of_ascii "FR"); PyStr (of_ascii "75")])]
         "prenom" = Some names
    /\ let national :=
         map snd (filter (fun row => is_france (fst row))
                         (combine levels names)) in
       get_column
         [("prenom"%string, [PyStr (of_ascii "LEA")]);
          ("prenom_accent_normalized"%string, [PyStr (of_ascii "lea")]);
          ("prenom_phonetic_normalized"%string, [PyStr (of_ascii "lea")])]
         "prenom" = Some national
       /\ get_column
            [("prenom"%string, [PyStr (of_ascii "LEA")]);
             ("prenom_accent_normalized"%string, [PyStr (of_ascii "lea")]);
             ("prenom_phonetic_normalized"%string, [PyStr (of_ascii "lea")])]
            "prenom_accent_normalized"
          = Some (map normalize_name_accent national)
       /\ get_column
            [("prenom"%string, [PyStr (of_ascii "LEA")]);
             ("prenom_accent_normalized"%string, [PyStr (of_ascii "lea")]);
             ("prenom_phonetic_normalized"%string, [PyStr (of_ascii "lea")])]
            "prenom_phonetic_normalized"
          = Some (map normalize_name_phonetic national)
       /\ get_column
            [("prenom"%string, [PyStr (of_ascii "LEA")]);
             ("prenom_accent_normalized"%string, [PyStr (of_ascii "lea")]);
             ("prenom_phonetic_normalized"%string, [PyStr (of_ascii "lea")])]
            "niveau_geographique" = None
       /\ get_column
            [("prenom"%string, [PyStr (of_ascii "LEA")]);
             ("prenom_accent_normalized"%string, [PyStr (of_ascii "lea")]);
             ("prenom_phonetic_normalized"%string, [PyStr (of_ascii "lea")])]
            "geographie" = None.
Proof.
  apply (process_data_result
           [("prenom"%string, [PyStr (of_ascii "LEA"); PyStr (of_ascii "LEO")]);
            ("niveau_geographique"%string,
             [PyStr (of_ascii "FRANCE"); PyStr (of_ascii "DEP")]);
            ("geographie"%string,
             [PyStr (of_ascii "FR"); PyStr (of_ascii "75")])]).
  vm_compute. reflexivity.
Defined.

(** ** [print_statistics] *)

Lemma get_column_existsb (df : dataframe) (n : string) :
  existsb (String.eqb n) (columns df)
  = match get_column df n with Some _ => true | None => false end.
Proof.
  destruct (get_column df n) eqn:E.
  - apply existsb_eqb_In.
    destruct (in_dec string_dec n (columns df)) as [H|H]; [exact H|].
    apply get_column_None in H. congruence.
  - apply get_column_None in E.
    destruct (existsb (String.eqb n) (columns df)) eqn:X; [|reflexivity].
    apply existsb_eqb_In in X. contradiction.
Qed.

(** [print_statistics] reports the count of distinct values of the column
    [prenom] and then, in the order asked, exactly the columns to compare
    that the frame has, the others being skipped; each reduction is the
    count of distinct names minus the count of distinct values of the
    column. *)
Theorem print_statistics_rows (df : dataframe) (cols : list string)
        (original_unique : Z) (rows : list (string * Z * Z)) :
  print_statistics df (Some cols) = Some (original_unique, rows) ->
  (exists names,
      get_column df "prenom" = Some names
      /\ original_unique = n_unique names)
  /\ map (fun row => fst (fst row)) rows
     = filter (fun col => existsb (String.eqb col) (columns df)) cols
  /\ Forall (fun row =>
               exists values,
                 get_column df (fst (fst row)) = Some values
                 /\ snd (fst row) = n_unique values
                 /\ snd row = (original_unique - n_unique values)%Z) rows.
Proof.
  unfold print_statistics.
  destruct (get_column df "prenom") as [names|]; [|discriminate].
  intros [= <- <-]. cbv zeta.
  split; [exists names; split; reflexivity|].
  induction cols as [|col cols [IH1 IH2]].
  - split; [reflexivity | constructor].
  - cbn [flat_map filter]. rewrite get_column_existsb.
    destruct (get_column df col) as [values|] eqn:E.
    + split; [cbn [app map fst]; rewrite IH1; reflexivity|].
      constructor; [|exact IH2]. exists values. cbn [fst snd]. auto.
    + split; [exact IH1 | exact IH2].
Qed.

Lemma print_statistics_rows_witness :
  (exists names,
      get_column
        [("prenom"%string, [PyStr (of_ascii "Lea"); PyStr (of_ascii "lea")]);
         ("prenom_accent_normalized"%string,
          [PyStr (of_ascii "lea"); PyStr (of_ascii "lea")])]
        "prenom" = Some names
      /\ 2%Z = n_unique names)
  /\ map (fun row : string * Z * Z => fst (fst row))
         [("prenom_accent_normalized"%string, 1%Z, 1%Z)]
     = filter (fun col => existsb (String.eqb col)
                            (columns
                               [("prenom"%string,
                                 [PyStr (of_ascii "Lea");
                                  PyStr (of_ascii "lea")]);
                                ("prenom_accent_normalized"%string,
                                 [PyStr (of_ascii "lea");
                                  PyStr (of_ascii "lea")])]))
         ["prenom_accent_normalized"; "absent"]%string
  /\ Forall (fun row : string * Z * Z =>
               exists values,
                 get_column
                   [("prenom"%string,
                     [PyStr (of_ascii "Lea"); PyStr (of_ascii "lea")]);
                    ("prenom_accent_normalized"%string,
                     [PyStr (of_ascii "lea"); PyStr (of_ascii "lea")])]
                   (fst (fst row)) = Some values
                 /\ snd (fst row) = n_unique values
                 /\ snd row = (2 - n_unique values)%Z)
            [("prenom_accent_normalized"%string, 1%Z, 1%Z)].
Proof.
  apply (print_statistics_rows
           [("prenom"%string, [PyStr (of_ascii "Lea"); PyStr (of_ascii "lea")]);
            ("prenom_accent_normalized"%string,
             [PyStr (of_ascii "lea"); PyStr (of_ascii "lea")])]
           ["prenom_accent_normalized"; "absent"]%string).
  vm_compute. reflexivity.
Defined.

(** ** The older scripts *)

(** On the frame that the similar-names script writes, the
    accent-agnostic script writes its own output frame and reaches its
    statistics without raising: the three columns they read are there, and
    both reductions they print are non-negative.  The examples loop that
    follows the statistics is not part of the statement. *)
Theorem agnostic_after_similar (df df1 : dataframe) :
  SimilarNames.add_normalized_column df = Some df1 ->
  exists df2 original agnostic normalized r1 r2,
    AccentAgnostic.add_accent_agnostic_column df1 = Some df2
    /\ AccentAgnostic.statistics df2
       = Some (original, agnostic, normalized, r1, r2)
    /\ (0 <= r1)%Z /\ (0 <= r2)%Z.
Proof.
  unfold SimilarNames.add_normalized_column,
    AccentAgnostic.add_accent_agnostic_column, AccentAgnostic.statistics.
  destruct (get_column df "prenom") as [names|] eqn:N; [|discriminate].
  destruct (is_utf8 names) eqn:U; [|discriminate]. intros [= <-].
  rewrite get_with_column_other, N, U by discriminate.
  do 6 eexists. split; [reflexivity|].
  rewrite !get_with_column_other, N by discriminate.
  rewrite get_with_column_same.
  rewrite get_with_column_other, get_with_column_same by discriminate.
  split; [reflexivity|].
  rewrite !map_elements_map by reflexivity.
  pose proof (n_unique_map AccentAgnostic.normalize_name_accent_agnostic names).
  pose proof (n_unique_map SimilarNames.normalize_name names).
  lia.
Qed.

Lemma agnostic_after_similar_witness :
  exists df2 original agnostic normalized r1 r2,
    AccentAgnostic.add_accent_agnostic_column
      [("prenom"%string, [PyStr (of_ascii "Sophie"); PyStr (of_ascii "Sofie")]);
       ("prenom_normalized"%string,
        [PyStr (of_ascii "sofi"); PyStr (of_ascii "sofi")])] = Some df2
    /\ AccentAgnostic.statistics df2
       = Some (original, agnostic, normalized, r1, r2)
    /\ (0 <= r1)%Z /\ (0 <= r2)%Z.
Proof.
  apply (agnostic_after_similar
           [("prenom"%string,
             [PyStr (of_ascii "Sophie"); PyStr (of_ascii "Sofie")])]).
  vm_compute. reflexivity.
Defined.

Lemma mem_app (c : char) (a b : str) : mem c (a ++ b) = mem c a || mem c b.
Proof. unfold mem. apply existsb_app. Qed.

Lemma free_of_lit_hd (a : char) (w s : str) :
  mem a s = false -> free_of (Re.Lit (a :: w)) s = true.
Proof.
  induction s as [|c s IH]; [reflexivity|].
  simpl mem. rewrite orb_false_iff. intros [H1 H2].
  cbn [free_of Re.match_at Re.starts_with]. rewrite H1. cbn [andb].
  apply IH. exact H2.
Qed.

Lemma agnostic_patterns_fixed (x : str) :
  Forall (fun c => mem c agnostic_chars = false) x ->
  apply_patterns AccentAgnostic.accent_patterns x = x.
Proof.
  intros H.
  assert (H0 : mem 0x102 x = false).
  { induction H as [|c x Hc _ IH]; [reflexivity|].
    unfold mem in *. cbn [existsb]. rewrite IH, orb_false_r.
    destruct (N.eqb_spec 0x102 c) as [<-|]; [discriminate Hc | reflexivity]. }
  unfold apply_patterns, AccentAgnostic.accent_patterns.
  cbn [fold_left fst snd].
  assert (K : forall cs w,
             (forall c, mem c agnostic_chars = false -> mem c cs = false) ->
             Re.sub (Re.Class cs) (Re.Text w) x = x).
  { intros cs w Hcs. rewrite sub_class. apply replace_chars_fixed.
    revert H. apply Forall_impl. exact Hcs. }
  assert (Sub : forall cs a b,
             agnostic_chars = a ++ cs ++ b ->
             forall c, mem c agnostic_chars = false -> mem c cs = false).
  { intros cs a b E c Hc. rewrite E, !mem_app in Hc.
    apply orb_false_iff in Hc. destruct Hc as [_ Hc].
    apply orb_false_iff in Hc. apply Hc. }
  rewrite (K _ _ (Sub _ [] _ eq_refl)).
  rewrite (K _ _ (Sub [0x102; 0xA9; 0x102; 0x161; 0x102; 0x218; 0x102; 0xAB]
                      [0x102; 0xA0; 0x102; 0x105; 0x102; 0x20AC] _ eq_refl)).
  rewrite (K _ _ (Sub [0x102; 0x17B; 0x102; 0x17A]
                      [0x102; 0xA0; 0x102; 0x105; 0x102; 0x20AC;
                       0x102; 0xA9; 0x102; 0x161; 0x102; 0x218; 0x102; 0xAB]
                      _ eq_refl)).
  rewrite (K _ _ (Sub [0x102; 0x17D; 0x102; 0xB6]
                      [0x102; 0xA0; 0x102; 0x105; 0x102; 0x20AC;
                       0x102; 0xA9; 0x102; 0x161; 0x102; 0x218; 0x102; 0xAB;
                       0x102; 0x17B; 0x102; 0x17A]
                      _ eq_refl)).
  rewrite (K _ _ (Sub [0x102; 0x10D; 0x102; 0xBB; 0x102; 0x152]
                      [0x102; 0xA0; 0x102; 0x105; 0x102; 0x20AC;
                       0x102; 0xA9; 0x102; 0x161; 0x102; 0x218; 0x102; 0xAB;
                       0x102; 0x17B; 0x102; 0x17A; 0x102; 0x17D; 0x102; 0xB6]
                      _ eq_refl)).
  rewrite (K _ _ (Sub [0x102; 0x17C; 0x102; 0x153]
                      [0x102; 0xA0; 0x102; 0x105; 0x102; 0x20AC;
                       0x102; 0xA9; 0x102; 0x161; 0x102; 0x218; 0x102; 0xAB;
                       0x102; 0x17B; 0x102; 0x17A; 0x102; 0x17D; 0x102; 0xB6;
                       0x102; 0x10D; 0x102; 0xBB; 0x102; 0x152]
                      [] eq_refl)).
  rewrite (sub_free _ _ x (free_of_lit_hd 0x102 [0xA7] x H0)).
  apply sub_free. apply free_of_lit_hd. exact H0.
Qed.

(** The two accent folders agree on every name whose lower-cased form has
    no character of either pattern table: both lower-case and strip it. *)
Theorem agnostic_agrees_on_plain (s : str) :
  forallb (fun c => negb (mem c agnostic_chars) && negb (mem c accented))
          (Unicode.lower s) = true ->
  AccentAgnostic.normalize_name_accent_agnostic (PyStr s)
  = normalize_name_accent (PyStr s)
  /\ normalize_name_accent (PyStr s) = PyStr (strip (Unicode.lower s)).
Proof.
  intros H. rewrite forallb_forall in H.
  assert (Hx : forall c, In c (strip (Unicode.lower s)) ->
                         mem c agnostic_chars = false
                         /\ mem c accented = false).
  { intros c Hc. apply strip_with_In in Hc. specialize (H c Hc).
    apply andb_true_iff in H. destruct H as [H1 H2].
    apply negb_true_iff in H1. apply negb_true_iff in H2. auto. }
  assert (E : normalize_name_accent (PyStr s) = PyStr (strip (Unicode.lower s))).
  { rewrite normalize_name_accent_str. f_equal. apply map_deaccent_fixed.
    apply Forall_forall. intros c Hc. apply Hx. exact Hc. }
  split; [|exact E]. rewrite E.
  destruct s as [|c s]; [reflexivity|].
  unfold AccentAgnostic.normalize_name_accent_agnostic.
  cbn [truthy isinstance_str negb orb]. f_equal.
  apply agnostic_patterns_fixed.
  apply Forall_forall. intros d Hd. apply Hx. exact Hd.
Qed.

Lemma agnostic_agrees_on_plain_witness :
  AccentAgnostic.normalize_name_accent_agnostic (PyStr (of_ascii " Sophie"))
  = normalize_name_accent (PyStr (of_ascii " Sophie"))
  /\ normalize_name_accent (PyStr (of_ascii " Sophie"))
     = PyStr (strip (Unicode.lower (of_ascii " Sophie"))).
Proof.
  apply (agnostic_agrees_on_plain (of_ascii " Sophie")).
  vm_compute. reflexivity.
Defined.

(** Run on a frame without the column [prenom_normalized], the
    accent-agnostic script writes its output and then raises: the
    statistics it prints read that column. *)
Theorem agnostic_needs_normalized (df df' : dataframe) :
  ~ In "prenom_normalized"%string (columns df) ->
  AccentAgnostic.add_accent_agnostic_column df = Some df' ->
  AccentAgnostic.statistics df' = None.
Proof.
  intros H. apply get_column_None in H.
  unfold AccentAgnostic.add_accent_agnostic_column, AccentAgnostic.statistics.
  destruct (get_column df "prenom") as [names|] eqn:N; [|discriminate].
  destruct (is_utf8 names); [|discriminate]. intros [= <-].
  rewrite get_with_column_other, N by discriminate.
  rewrite get_with_column_same.
  rewrite get_with_column_other, H by discriminate. reflexivity.
Qed.

Lemma agnostic_needs_normalized_witness :
  AccentAgnostic.statistics
    [("prenom"%string, [PyStr (of_ascii "Sophie")]);
     ("prenom_accent_agnostic"%string, [PyStr (of_ascii "sophie")])] = None.
Proof.
  apply (agnostic_needs_normalized
           [("prenom"%string, [PyStr (of_ascii "Sophie")])]).
  - simpl. intuition discriminate.
  - vm_compute. reflexivity.
Defined.

(** ** [add_column_to_dataframe] *)

(** [add_column_to_dataframe] raises when the frame has no column
    [prenom]; otherwise the column it writes has a null where the name is
    null and the value of the function elsewhere, every column of another
    name keeps its cells, and the frame keeps its column order, the new name
    coming last when it is new. *)
Theorem add_column_to_dataframe_spec (df : dataframe) (column_name : string)
        (f : pyval -> pyval) :
  (get_column df "prenom" = None ->
   add_column_to_dataframe df column_name f = None)
  /\ (forall df',
         add_column_to_dataframe df column_name f = Some df' ->
         exists names,
           get_column df "prenom" = Some names
           /\ get_column df' column_name
              = Some (map (fun v => match v with
                                    | PyNone => PyNone
                                    | _ => f v
                                    end) names)
           /\ (forall c, c <> column_name ->
                         get_column df' c = get_column df c)
           /\ columns df'
              = columns df ++
                (if existsb (String.eqb column_name) (columns df)
                 then [] else [column_name])).
Proof.
  unfold add_column_to_dataframe. split.
  - intros ->. reflexivity.
  - intros df'.
    destruct (get_column df "prenom") as [names|]; [|discriminate].
    destruct (is_utf8 names); [|discriminate]. intros [= <-].
    exists names. split; [reflexivity|]. split; [|split].
    + apply get_with_column_same.
    + intros c Hc. apply get_with_column_other. exact Hc.
    + apply columns_with_column.
Qed.

Lemma add_column_to_dataframe_spec_witness :
  add_column_to_dataframe [("nom"%string, [PyStr (of_ascii "Lea")])]
                          "prenom_accent_normalized" normalize_name_accent
  = None.
Proof.
  apply (proj1 (add_column_to_dataframe_spec
                  [("nom"%string, [PyStr (of_ascii "Lea")])]
                  "prenom_accent_normalized" normalize_name_accent)).
  reflexivity.
Defined.

(** ** Case *)

Lemma lower_idem (s : str) : Unicode.lower (Unicode.lower s) = Unicode.lower s.
Proof. apply lower_fixed. apply lower_image. Qed.

(** Both foldings ignore case: the lower-cased name folds as the name. *)
Theorem folding_ignores_case (s : str) :
  normalize_name_accent (PyStr (Unicode.lower s))
  = normalize_name_accent (PyStr s)
  /\ normalize_name_phonetic (PyStr (Unicode.lower s))
     = normalize_name_phonetic (PyStr s).
Proof.
  rewrite !normalize_name_accent_str, !normalize_name_phonetic_str, lower_idem.
  split; reflexivity.
Qed.

(** ** Outer whitespace *)

Lemma lstrip_split_all (f : char -> bool) (s : str) :
  exists pre, s = pre ++ lstrip f s /\ Forall (fun c => f c = true) pre.
Proof.
  induction s as [|c s (pre & E & F)]; [exists []; split; [reflexivity|constructor]|].
  simpl. destruct (f c) eqn:Hc.
  - exists (c :: pre). split; [simpl; f_equal; exact E|].
    constructor; assumption.
  - exists []. split; [reflexivity | constructor].
Qed.

Lemma strip_with_split_all (f : char -> bool) (s : str) :
  exists pre post,
    s = pre ++ strip_with f s ++ post
    /\ Forall (fun c => f c = true) pre /\ Forall (fun c => f c = true) post.
Proof.
  unfold strip_with, rstrip.
  destruct (lstrip_split_all f s) as (pre & Hpre & Fpre).
  destruct (lstrip_split_all f (rev (lstrip f s))) as (post & Hpost & Fpost).
  exists pre, (rev post). split; [|split].
  - rewrite <- rev_app_distr, <- Hpost, rev_involutive. exact Hpre.
  - exact Fpre.
  - apply Forall_rev. exact Fpost.
Qed.

Lemma lstrip_all (f : char -> bool) (s : str) :
  Forall (fun c => f c = true) s -> lstrip f s = [].
Proof.
  induction 1 as [|c s Hc _ IH]; [reflexivity|]. simpl. rewrite Hc. exact IH.
Qed.

Lemma lstrip_app (f : char -> bool) (pre u : str) :
  Forall (fun c => f c = true) pre -> lstrip f (pre ++ u) = lstrip f u.
Proof.
  induction 1 as [|c pre Hc _ IH]; [reflexivity|]. simpl. rewrite Hc. exact IH.
Qed.

Lemma lstrip_app_r (f : char -> bool) (u post : str) :
  Forall (fun c => f c = true) post ->
  lstrip f (u ++ post) = lstrip f u ++ post
  \/ (lstrip f u = [] /\ lstrip f (u ++ post) = []).
Proof.
  intros H. induction u as [|c u IH].
  - right. split; [reflexivity | apply lstrip_all; exact H].
  - simpl. destruct (f c); [exact IH | left; reflexivity].
Qed.

Lemma strip_with_app (f : char -> bool) (pre u post : str) :
  Forall (fun c => f c = true) pre -> Forall (fun c => f c = true) post ->
  strip_with f (pre ++ u ++ post) = strip_with f u.
Proof.
  intros Hpre Hpost. unfold strip_with, rstrip.
  rewrite (lstrip_app f pre _ Hpre).
  destruct (lstrip_app_r f u post Hpost) as [E|[E1 E2]].
  - rewrite E, rev_app_distr, lstrip_app; [reflexivity|].
    apply Forall_rev. exact Hpost.
  - rewrite E1, E2. reflexivity.
Qed.

Lemma isspace_lower (c : char) :
  Unicode.isspace c = true -> Unicode.lower_cp c = [c].
Proof.
  unfold Unicode.isspace.
  rewrite !orb_true_iff, !andb_true_iff, !N.leb_le, !N.eqb_eq. intros H.
  assert (K : In c [0x9; 0xA; 0xB; 0xC; 0xD; 0x1C; 0x1D; 0x1E; 0x1F; 0x20;
                    0x85; 0xA0; 0x1680; 0x2000; 0x2001; 0x2002; 0x2003;
                    0x2004; 0x2005; 0x2006; 0x2007; 0x2008; 0x2009; 0x200A;
                    0x2028; 0x2029; 0x202F; 0x205F; 0x3000]).
  { simpl. lia. }
  repeat (destruct K as [<-|K]; [vm_compute; reflexivity|]).
  destruct K.
Qed.

Lemma lower_spaces (s : str) :
  Forall (fun c => Unicode.isspace c = true) s -> Unicode.lower s = s.
Proof.
  intros H. apply lower_fixed. rewrite Forall_forall in H.
  intros d Hd. apply isspace_lower. apply H. exact Hd.
Qed.

Lemma strip_lower_strip (s : str) :
  strip (Unicode.lower (strip s)) = strip (Unicode.lower s).
Proof.
  unfold strip.
  destruct (strip_with_split_all Unicode.isspace s)
    as (pre & post & E & Fpre & Fpost).
  rewrite E at 2. unfold Unicode.lower. rewrite !flat_map_app.
  fold (Unicode.lower pre). fold (Unicode.lower post).
  rewrite (lower_spaces pre Fpre), (lower_spaces post Fpost).
  rewrite (strip_with_app _ pre _ post Fpre Fpost). reflexivity.
Qed.

(** Both foldings ignore whitespace around the name: the stripped name
    folds as the name. *)
Theorem folding_ignores_outer_whitespace (s : str) :
  normalize_name_accent (PyStr (strip s)) = normalize_name_accent (PyStr s)
  /\ normalize_name_phonetic (PyStr (strip s))
     = normalize_name_phonetic (PyStr s).
Proof.
  rewrite !normalize_name_accent_str, !normalize_name_phonetic_str,
    strip_lower_strip.
  split; reflexivity.
Qed.

(** ** The scripts against each other *)

Lemma name_variants_phonetic (v : pyval) :
  NameVariants.normalize_name_phonetic v = SimilarNames.normalize_name v.
Proof.
  destruct v as [ |b|z|b|[|c s]];
    try (unfold SimilarNames.normalize_name,
           NameVariants.normalize_name_phonetic;
         cbn [isinstance_str negb]; rewrite orb_true_r; reflexivity);
    reflexivity.
Qed.

(** On the same frame, the column [prenom_phonetic_normalized] that
    [create_name_variants_parquet.py] writes is the column
    [prenom_normalized] that [create_similar_names_parquet.py] writes, and
    the former script keeps every column of another name as it is. *)
Theorem name_variants_matches_similar (df d1 d2 : dataframe) :
  SimilarNames.add_normalized_column df = Some d1 ->
  NameVariants.process_name_variants df = Some d2 ->
  get_column d2 "prenom_phonetic_normalized"
  = get_column d1 "prenom_normalized"
  /\ (forall c, c <> "prenom_accent_normalized"%string ->
                c <> "prenom_phonetic_normalized"%string ->
                get_column d2 c = get_column df c).
Proof.
  unfold SimilarNames.add_normalized_column,
    NameVariants.process_name_variants, NameVariants.add_column_to_dataframe.
  destruct (get_column df "prenom") as [names|] eqn:N; [|discriminate].
  destruct (is_utf8 names) eqn:U; [|discriminate]. intros [= <-].
  rewrite get_with_column_other, N, U by discriminate. intros [= <-].
  rewrite !get_with_column_same. split.
  - f_equal. unfold map_elements. apply map_ext. intros v.
    destruct v; try reflexivity; apply name_variants_phonetic.
  - intros c Ha Hp. rewrite !get_with_column_other by assumption.
    reflexivity.
Qed.

Lemma name_variants_matches_similar_witness :
  get_column
    [("prenom"%string, [PyStr (of_ascii "Sophie")]);
     ("prenom_accent_normalized"%string, [PyStr (of_ascii "sophie")]);
     ("prenom_phonetic_normalized"%string, [PyStr (of_ascii "sofi")])]
    "prenom_phonetic_normalized"
  = get_column
      [("prenom"%string, [PyStr (of_ascii "Sophie")]);
       ("prenom_normalized"%string, [PyStr (of_ascii "sofi")])]
      "prenom_normalized"
  /\ (forall c, c <> "prenom_accent_normalized"%string ->
                c <> "prenom_phonetic_normalized"%string ->
                get_column
                  [("prenom"%string, [PyStr (of_ascii "Sophie")]);
                   ("prenom_accent_normalized"%string,
                    [PyStr (of_ascii "sophie")]);
                   ("prenom_phonetic_normalized"%string,
                    [PyStr (of_ascii "sofi")])] c
                = get_column [("prenom"%string, [PyStr (of_ascii "Sophie")])] c).
Proof.
  apply (name_variants_matches_similar
           [("prenom"%string, [PyStr (of_ascii "Sophie")])]);
    vm_compute; reflexivity.
Defined.

(** ** What the accent-agnostic patterns do *)

Lemma replace_one_length (f : char -> bool) (w s : str) :
  length w = 1%nat -> length (replace_chars f w s) = length s.
Proof.
  intros Hw. induction s as [|d s IH]; [reflexivity|].
  unfold replace_chars in *. simpl. rewrite length_app, IH.
  destruct (f d); [rewrite Hw|]; reflexivity.
Qed.

Lemma replace_one_nth (f : char -> bool) (w s : str) (i : nat) (c : char) :
  length w = 1%nat -> nth_error s i = Some c -> f c = false ->
  nth_error (replace_chars f w s) i = Some c.
Proof.
  intros Hw. destruct w as [|a [|b w]]; try discriminate. clear Hw.
  revert i; induction s as [|d s IH]; intros [|i]; simpl; try discriminate.
  - intros [= ->] Hc. rewrite Hc. reflexivity.
  - intros Hi Hc. destruct (f d); simpl; apply IH; assumption.
Qed.

(** Class patterns that do not contain [c] and write one letter keep [c]
    where it stands. *)
Lemma class_patterns_keep (pats : list (Re.pattern * str)) (c : char) :
  Forall (fun pr => exists cs, fst pr = Re.Class cs /\ mem c cs = false
                               /\ length (snd pr) = 1%nat) pats ->
  forall (x : str) (i : nat),
    nth_error x i = Some c -> nth_error (apply_patterns pats x) i = Some c.
Proof.
  induction 1 as [|[p w] pats (cs & E & Hc & Hw) _ IH]; intros x i Hi;
    [exact Hi|].
  simpl in E, Hw. subst p. unfold apply_patterns in *. cbn [fold_left fst snd].
  apply IH. rewrite sub_class. apply replace_one_nth; assumption.
Qed.

Lemma class_patterns_length (pats : list (Re.pattern * str)) :
  Forall (fun pr => exists cs, fst pr = Re.Class cs
                               /\ length (snd pr) = 1%nat) pats ->
  forall x : str, length (apply_patterns pats x) = length x.
Proof.
  induction 1 as [|[p w] pats (cs & E & Hw) _ IH]; intros x; [reflexivity|].
  simpl in E, Hw. subst p. unfold apply_patterns in *. cbn [fold_left fst snd].
  rewrite IH, sub_class. apply replace_one_length. exact Hw.
Qed.

Lemma apply_patterns_Forall (P : char -> Prop) (pats : list (Re.pattern * str))
      (x : str) :
  Forall (fun pr => Forall P (snd pr)) pats -> Forall P x ->
  Forall P (apply_patterns pats x).
Proof.
  intros H. revert x. induction H as [|[p w] pats Hw _ IH]; intros x Hx;
    [exact Hx|].
  unfold apply_patterns in *. cbn [fold_left fst snd]. apply IH.
  apply sub_Forall; assumption.
Qed.

Lemma accented_not_agnostic (c : char) :
  mem c accented = true -> mem c agnostic_chars = false.
Proof.
  intros E. apply mem_In in E.
  cbn [accented flat_map pattern_chars accent_patterns fst app] in E.
  repeat (destruct E as [<-|E]; [vm_compute; reflexivity|]).
  destruct E.
Qed.

Lemma agnostic_classes (c : char) (pats : list (Re.pattern * str)) :
  mem c (flat_map (fun pr => match fst pr with
                             | Re.Class cs => cs
                             | _ => []
                             end) pats) = false ->
  Forall (fun pr => forall cs, fst pr = Re.Class cs -> mem c cs = false) pats.
Proof.
  induction pats as [|[p w] pats IH]; [constructor|].
  cbn [flat_map fst]. rewrite mem_app, orb_false_iff. intros [H1 H2].
  constructor; [|apply IH; exact H2].
  cbn [fst]. intros cs ->. exact H1.
Qed.

(** The accent-agnostic script removes no French accent: in the text it
    returns, which is as long as the lower-cased, stripped name, every
    accented letter that the other scripts fold stands where it stood. *)
Theorem agnostic_keeps_french_accents (s : str) :
  exists out,
    AccentAgnostic.normalize_name_accent_agnostic (PyStr s) = PyStr out
    /\ length out = length (strip (Unicode.lower s))
    /\ forall (i : nat) (c : char),
        nth_error (strip (Unicode.lower s)) i = Some c ->
        mem c accented = true ->
        nth_error out i = Some c.
Proof.
  destruct s as [|c0 s0].
  { exists []. split; [reflexivity|]. split; [reflexivity|].
    intros [|i] c; discriminate. }
  unfold AccentAgnostic.normalize_name_accent_agnostic.
  cbn [truthy isinstance_str negb orb].
  set (x := strip (Unicode.lower (c0 :: s0))).
  assert (Hx : Forall (fun d => mem d [0x102] = false) x).
  { apply Forall_forall. intros d Hd. apply strip_with_In in Hd.
    apply lower_image in Hd. unfold mem. cbn [existsb].
    rewrite orb_false_r. destruct (N.eqb_spec d 0x102) as [->|]; [|reflexivity].
    vm_compute in Hd. discriminate. }
  change AccentAgnostic.accent_patterns
    with (firstn 6 AccentAgnostic.accent_patterns
          ++ skipn 6 AccentAgnostic.accent_patterns).
  unfold apply_patterns. rewrite fold_left_app.
  fold (apply_patterns (firstn 6 AccentAgnostic.accent_patterns) x).
  set (y := apply_patterns (firstn 6 AccentAgnostic.accent_patterns) x).
  assert (Hy : mem 0x102 y = false).
  { apply Forall_not_mem. apply apply_patterns_Forall; [|exact Hx].
    repeat constructor. }
  cbn [skipn AccentAgnostic.accent_patterns fold_left fst snd].
  rewrite (sub_free _ _ y (free_of_lit_hd 0x102 [0xA7] y Hy)).
  rewrite (sub_free _ _ y (free_of_lit_hd 0x102 [0xB1] y Hy)).
  exists y. split; [reflexivity|]. split.
  - apply class_patterns_length.
    cbn [firstn AccentAgnostic.accent_patterns].
    repeat (constructor; [eexists; split; [reflexivity|reflexivity]|]).
    constructor.
  - intros i c Hi Hc. apply class_patterns_keep; [|exact Hi].
    pose proof (agnostic_classes c AccentAgnostic.accent_patterns
                  (accented_not_agnostic c Hc)) as K.
    cbn [firstn AccentAgnostic.accent_patterns].
    unfold AccentAgnostic.accent_patterns in K.
    repeat (match type of K with
            | Forall _ (_ :: _) =>
                let K1 := fresh "K" in
                inversion K as [|? ? K1 K']; subst; clear K; rename K' into K;
                cbn [fst] in K1
            end).
    repeat (constructor;
            [eexists; split; [reflexivity|];
             split; [auto | reflexivity]|]).
    constructor.
Qed.

(** ** Names that fold to the empty string *)

Lemma starts_with_firstn (w s : str) :
  Re.starts_with w s = true -> firstn (length w) s = w.
Proof.
  revert s; induction w as [|a w IH]; intros [|b s]; simpl; try easy.
  rewrite andb_true_iff, N.eqb_eq. intros [-> H]. f_equal. apply IH. exact H.
Qed.

Lemma run_length_firstn (f : char -> bool) (s : str) :
  Forall (fun c => f c = true) (firstn (Re.run_length f s) s).
Proof.
  induction s as [|c s IH]; [constructor|]. cbn [Re.run_length].
  destruct (f c) eqn:E; [|constructor]. simpl. constructor; assumption.
Qed.

(** A substitution keeps some character that is not of a kind [H] when
    every match is made of characters of that kind or is replaced by a
    text that has another one. *)
Lemma sub_survives (H : char -> bool) (p : Re.pattern) (t : Re.template) :
  (forall u n g,
      Re.match_at p u = Some (n, g) ->
      Exists (fun c => H c = false) (Re.expand t g)
      \/ Forall (fun c => H c = true) (firstn n u)) ->
  forall s,
    Exists (fun c => H c = false) s ->
    Exists (fun c => H c = false) (Re.sub p t s).
Proof.
  intros Hp s. remember (length s) as n eqn:Hn. revert s Hn.
  induction n as [n IH] using lt_wf_ind. intros [|c rest] Hn E;
    [inversion E|].
  rewrite sub_cons. simpl in Hn.
  assert (Keep : Exists (fun c => H c = false) (c :: Re.sub p t rest)).
  { inversion E as [? ? Hc|? ? Hr]; subst.
    - left. exact Hc.
    - right. apply (IH (length rest)); [lia | reflexivity | exact Hr]. }
  destruct (Re.match_at p (c :: rest)) as [[[|m] g]|] eqn:M;
    [exact Keep| |exact Keep].
  apply Exists_app. destruct (Hp _ _ _ M) as [Hg|Hall]; [left; exact Hg|].
  right. apply (IH (length (skipn m rest)));
    [rewrite length_skipn; lia | reflexivity |].
  rewrite <- (firstn_skipn (S m) (c :: rest)) in E.
  apply Exists_app in E. destruct E as [E|E]; [|exact E].
  exfalso. apply Exists_exists in E. destruct E as (d & Hd & Hf).
  rewrite Forall_forall in Hall. rewrite (Hall d Hd) in Hf. discriminate.
Qed.

Lemma strip_with_survives (H f : char -> bool) (s : str) :
  (forall c, f c = true -> H c = true) ->
  Exists (fun c => H c = false) s ->
  Exists (fun c => H c = false) (strip_with f s).
Proof.
  intros Hf E.
  destruct (strip_with_split_all f s) as (pre & post & Es & Fpre & Fpost).
  rewrite Es in E. apply Exists_app in E. destruct E as [E|E].
  - exfalso. apply Exists_exists in E. destruct E as (d & Hd & Hn).
    rewrite Forall_forall in Fpre. rewrite (Hf d (Fpre d Hd)) in Hn.
    discriminate.
  - apply Exists_app in E. destruct E as [E|E]; [exact E|].
    exfalso. apply Exists_exists in E. destruct E as (d & Hd & Hn).
    rewrite Forall_forall in Fpost. rewrite (Hf d (Fpost d Hd)) in Hn.
    discriminate.
Qed.

Lemma lit_survives (w r : str) :
  Exists (fun c => silent c = false) r \/ Forall (fun c => silent c = true) w ->
  forall u n g,
    Re.match_at (Re.Lit w) u = Some (n, g) ->
    Exists (fun c => silent c = false) (Re.expand (Re.Text r) g)
    \/ Forall (fun c => silent c = true) (firstn n u).
Proof.
  intros [Hr|Hw] u n g; simpl; [left; exact Hr|].
  destruct (Re.starts_with w u) eqn:E; [|discriminate]. intros [= <- <-].
  right. rewrite (starts_with_firstn w u E). exact Hw.
Qed.

Lemma phonetic_rules_survive (x : str) :
  Exists (fun c => silent c = false) x ->
  Exists (fun c => silent c = false) (phonetic_rules x).
Proof.
  intros E. unfold phonetic_rules, strip_chars. cbv zeta.
  apply strip_with_survives.
  { intros c Hc. apply mem_In in Hc. vm_compute in Hc.
    destruct Hc as [<-|[<-|[]]]; reflexivity. }
  apply sub_survives.
  { intros u n g. simpl.
    pose proof (run_length_firstn (N.eqb 0x2D) u) as R.
    destruct (Re.run_length (N.eqb 0x2D) u); [discriminate|].
    intros [= <- <-]. right. revert R. apply Forall_impl.
    intros c Hc. apply N.eqb_eq in Hc. subst c. reflexivity. }
  apply sub_survives.
  { intros u n g. simpl.
    pose proof (run_length_firstn Unicode.isspace u) as R.
    destruct (Re.run_length Unicode.isspace u); [discriminate|].
    intros [= <- <-]. right. revert R. apply Forall_impl.
    intros c Hc. unfold silent. rewrite Hc. apply orb_true_r. }
  apply sub_survives.
  { apply lit_survives. right. repeat constructor. }
  apply sub_survives.
  { intros u n g M. left. simpl. left. reflexivity. }
  apply sub_survives.
  { intros u n g M. left. simpl. left. reflexivity. }
  apply sub_survives.
  { apply lit_survives. left. left. reflexivity. }
  apply sub_survives.
  { intros u n g M. left. simpl. left. reflexivity. }
  apply sub_survives.
  { intros u n g. simpl. destruct u as [|c rest]; [discriminate|].
    destruct (c =? 0xA); [discriminate|].
    pose proof (run_length_firstn (N.eqb c) rest) as R.
    destruct (Re.run_length (N.eqb c) rest) as [|k]; [discriminate|].
    intros [= <- <-]. destruct (silent c) eqn:Sc.
    - right. cbn [firstn]. constructor; [exact Sc|].
      revert R. apply Forall_impl. intros d Hd. apply N.eqb_eq in Hd.
      subst d. exact Sc.
    - left. left. exact Sc. }
  apply sub_survives; [|exact E].
  apply lit_survives. left. left. reflexivity.
Qed.

Lemma isspace_In (c : char) :
  Unicode.isspace c = true ->
  In c [0x9; 0xA; 0xB; 0xC; 0xD; 0x1C; 0x1D; 0x1E; 0x1F; 0x20;
        0x85; 0xA0; 0x1680; 0x2000; 0x2001; 0x2002; 0x2003;
        0x2004; 0x2005; 0x2006; 0x2007; 0x2008; 0x2009; 0x200A;
        0x2028; 0x2029; 0x202F; 0x205F; 0x3000].
Proof.
  unfold Unicode.isspace.
  rewrite !orb_true_iff, !andb_true_iff, !N.leb_le, !N.eqb_eq. intros H.
  simpl. lia.
Qed.

Lemma silent_not_accented (c : char) :
  silent c = true -> mem c accented = false.
Proof.
  unfold silent. rewrite !orb_true_iff, !N.eqb_eq.
  intros [[->| ->]|H]; try reflexivity.
  apply isspace_In in H.
  repeat (destruct H as [<-|H]; [vm_compute; reflexivity|]).
  destruct H.
Qed.

Lemma silent_absent (a : char) (s : str) :
  silent a = false -> Forall (fun c => silent c = true) s -> mem a s = false.
Proof.
  intros Ha. induction 1 as [|c s Hc _ IH]; [reflexivity|].
  unfold mem in *. cbn [existsb]. rewrite IH, orb_false_r.
  destruct (N.eqb_spec a c) as [->|]; [congruence | reflexivity].
Qed.

Lemma free_of_litend_hd (a : char) (w s : str) :
  mem a s = false -> free_of (Re.LitEnd (a :: w)) s = true.
Proof.
  induction s as [|c s IH]; [reflexivity|].
  simpl mem. rewrite orb_false_iff. intros [H1 H2].
  cbn [free_of Re.match_at Re.starts_with]. rewrite H1. cbn [andb].
  apply IH. exact H2.
Qed.

Lemma free_of_alt_hd (a b : char) (w1 w2 s : str) :
  mem a s = false -> mem b s = false ->
  free_of (Re.Alt (a :: w1) (b :: w2)) s = true.
Proof.
  induction s as [|c s IH]; [reflexivity|].
  simpl mem. rewrite !orb_false_iff. intros [A1 A2] [B1 B2].
  cbn [free_of Re.match_at Re.starts_with]. rewrite A1, B1. cbn [andb].
  apply IH; assumption.
Qed.

Lemma strip_with_all (f : char -> bool) (s : str) :
  Forall (fun c => f c = true) s -> strip_with f s = [].
Proof.
  intros H. unfold strip_with, rstrip. rewrite (lstrip_all f s H).
  reflexivity.
Qed.

Lemma replace_chars_Forall (P : char -> Prop) (f : char -> bool) (w s : str) :
  Forall P s -> Forall P w -> Forall P (replace_chars f w s).
Proof.
  intros Hs Hw. induction Hs as [|c s Hc _ IH]; [constructor|].
  unfold replace_chars in *. simpl. apply Forall_app. split; [|exact IH].
  destruct (f c); [exact Hw | constructor; [exact Hc | constructor]].
Qed.

Lemma phonetic_rules_silent (x : str) :
  Forall (fun c => silent c = true) x -> phonetic_rules x = [].
Proof.
  intros Hx. unfold phonetic_rules, strip_chars. cbv zeta.
  assert (E1 : Re.sub (Re.Lit (of_ascii "y")) (Re.Text (of_ascii "i")) x = x).
  { change (of_ascii "y") with [0x79]. rewrite sub_lit1.
    apply replace_chars_fixed. apply not_mem_Forall.
    apply silent_absent; [reflexivity | exact Hx]. }
  rewrite E1. set (t1 := Re.sub Re.Repeat Re.Group1 x).
  assert (H1 : Forall (fun c => silent c = true) t1).
  { apply sub_Forall; [exact Hx | constructor]. }
  rewrite (sub_free (Re.LitEnd (of_ascii "ard")) _ t1
             (free_of_litend_hd 0x61 _ t1 (silent_absent 0x61 t1 eq_refl H1))).
  rewrite (sub_free (Re.Lit (of_ascii "ph")) _ t1
             (free_of_lit_hd 0x70 _ t1 (silent_absent 0x70 t1 eq_refl H1))).
  rewrite (sub_free (Re.Alt (of_ascii "ck") (of_ascii "qu")) _ t1
             (free_of_alt_hd 0x63 0x71 _ _ t1
                (silent_absent 0x63 t1 eq_refl H1)
                (silent_absent 0x71 t1 eq_refl H1))).
  rewrite (sub_free (Re.LitEnd (of_ascii "ie")) _ t1
             (free_of_litend_hd 0x69 _ t1 (silent_absent 0x69 t1 eq_refl H1))).
  change (of_ascii "h") with [0x68]. change (of_ascii " ") with [0x20].
  change (of_ascii "-") with [0x2D].
  rewrite sub_lit1, sub_spaces, sub_plus.
  apply strip_with_all. apply collapse_Forall; [|reflexivity].
  apply Forall_forall. intros c Hc.
  destruct (collapse_In _ _ _ _ Hc) as [->|[Hin Hsp]]; [reflexivity|].
  assert (Hs : silent c = true /\ mem c [0x68] = false).
  { clear Hc Hsp. revert c Hin. apply Forall_forall.
    apply Forall_and.
    - apply replace_chars_Forall; [exact H1 | constructor].
    - apply replace_chars_gone. constructor. }
  destruct Hs as [Hs Hh]. unfold silent in Hs. rewrite Hsp in Hs.
  unfold mem in Hh. cbn [existsb] in Hh. rewrite orb_false_r in Hh.
  rewrite Hh in Hs. rewrite orb_false_r in Hs. cbn [orb] in Hs.
  apply N.eqb_eq in Hs. subst c. reflexivity.
Qed.

Lemma silent_or_not (s : str) :
  Forall (fun c => silent c = true) s \/ Exists (fun c => silent c = false) s.
Proof.
  induction s as [|c s [IH|IH]].
  - left. constructor.
  - destruct (silent c) eqn:E.
    + left. constructor; assumption.
    + right. left. exact E.
  - right. right. exact IH.
Qed.

(** Phonetic folding returns the empty string exactly for the names made
    of the letter "h" (in either case), hyphens and whitespace. *)
Theorem phonetic_empty_iff (s : str) :
  normalize_name_phonetic (PyStr s) = PyStr []
  <-> Forall (fun c => silent c = true) (Unicode.lower s).
Proof.
  rewrite normalize_name_phonetic_str. split.
  - intros [= E]. destruct (silent_or_not (Unicode.lower s)) as [H|H];
      [exact H|]. exfalso.
    assert (X : Exists (fun c => silent c = false)
                       (map deaccent (strip (Unicode.lower s)))).
    { apply (strip_with_survives silent Unicode.isspace) in H.
      - apply Exists_exists in H. destruct H as (c & Hc & Hs).
        apply Exists_exists. exists (deaccent c). split; [apply in_map; exact Hc|].
        destruct (deaccent_cases c) as [->|B]; [exact Hs|].
        apply mem_In in B.
        cbn [base_letters flat_map accent_patterns snd app] in B.
        repeat (destruct B as [<-|B]; [reflexivity|]). destruct B.
      - intros c Hc. unfold silent. rewrite Hc. apply orb_true_r. }
    apply phonetic_rules_survive in X. rewrite E in X. inversion X.
  - intros H. f_equal.
    assert (Hx : Forall (fun c => silent c = true) (strip (Unicode.lower s))).
    { apply strip_with_Forall. exact H. }
    rewrite map_deaccent_fixed.
    + apply phonetic_rules_silent. exact Hx.
    + revert Hx. apply Forall_impl. apply silent_not_accented.
Qed.

(** ** The order of the accent patterns *)

Lemma sub_char (p : Re.pattern) (w s : str) :
  char_pattern p = true ->
  Re.sub p (Re.Text w) s
  = replace_chars (fun c => mem c (pattern_chars p)) w s.
Proof.
  destruct p as [[|a [|b v]]|cs| | | | |]; try discriminate; intros _.
  - apply sub_lit1.
  - apply sub_class.
Qed.

Section Separated.

Variable pats : list (Re.pattern * str).
Hypothesis Hsep : separated pats = true.

Lemma separated_char (pr : Re.pattern * str) :
  In pr pats -> char_pattern (fst pr) = true.
Proof.
  intros H. unfold separated in Hsep. rewrite forallb_forall in Hsep.
  specialize (Hsep pr H). apply andb_true_iff in Hsep. apply Hsep.
Qed.

Lemma separated_letters (pr pr' : Re.pattern * str) (c : char) :
  In pr pats -> In pr' pats -> In c (snd pr) ->
  mem c (pattern_chars (fst pr')) = false.
Proof.
  intros H H' Hc. unfold separated in Hsep. rewrite forallb_forall in Hsep.
  specialize (Hsep pr H). apply andb_true_iff in Hsep.
  destruct Hsep as [_ K]. rewrite forallb_forall in K. specialize (K pr' H').
  apply andb_true_iff in K. destruct K as [K _].
  rewrite forallb_forall in K. apply negb_true_iff. apply K. exact Hc.
Qed.

Lemma separated_coherent (pr pr' : Re.pattern * str) (c : char) :
  In pr pats -> In pr' pats ->
  mem c (pattern_chars (fst pr)) = true ->
  mem c (pattern_chars (fst pr')) = true ->
  snd pr = snd pr'.
Proof.
  intros H H' Hc Hc'. unfold separated in Hsep.
  rewrite forallb_forall in Hsep.
  specialize (Hsep pr H). apply andb_true_iff in Hsep.
  destruct Hsep as [_ K]. rewrite forallb_forall in K. specialize (K pr' H').
  apply andb_true_iff in K. destruct K as [_ K].
  apply orb_true_iff in K. destruct K as [K|K].
  - rewrite forallb_forall in K. apply mem_In in Hc. specialize (K c Hc).
    rewrite Hc' in K. discriminate.
  - apply str_eqb_eq. exact K.
Qed.

(** A sublist of the table, applied to text that no pattern matches. *)
Lemma apply_sub_fixed (l : list (Re.pattern * str)) (w : str) :
  incl l pats ->
  (forall pr c, In pr pats -> In c w -> mem c (pattern_chars (fst pr)) = false) ->
  apply_patterns l w = w.
Proof.
  intros Hl Hw. induction l as [|pr l IH]; [reflexivity|].
  unfold apply_patterns in *. cbn [fold_left].
  rewrite sub_char by (apply separated_char, Hl; left; reflexivity).
  rewrite replace_chars_fixed.
  - apply IH. intros x Hx. apply Hl. right. exact Hx.
  - apply Forall_forall. intros c Hc. apply (Hw pr c); [|exact Hc].
    apply Hl. left. reflexivity.
Qed.

Lemma apply_sub_app (l : list (Re.pattern * str)) (a b : str) :
  incl l pats ->
  apply_patterns l (a ++ b) = apply_patterns l a ++ apply_patterns l b.
Proof.
  revert a b. induction l as [|pr l IH]; intros a b Hl; [reflexivity|].
  unfold apply_patterns in *. cbn [fold_left].
  rewrite !sub_char by (apply separated_char, Hl; left; reflexivity).
  rewrite replace_chars_app. apply IH. intros x Hx. apply Hl. right. exact Hx.
Qed.

Lemma apply_sub_char (l : list (Re.pattern * str)) (c : char) :
  incl l pats -> apply_patterns l [c] = fold_char l c.
Proof.
  induction l as [|pr l IH]; intros Hl; [reflexivity|].
  assert (Hl' : incl l pats) by (intros x Hx; apply Hl; right; exact Hx).
  assert (Hpr : In pr pats) by (apply Hl; left; reflexivity).
  unfold apply_patterns, fold_char in *. cbn [fold_left find].
  rewrite sub_char by (apply separated_char; exact Hpr).
  unfold replace_chars. cbn [flat_map].
  destruct (mem c (pattern_chars (fst pr))).
  - rewrite app_nil_r. apply (apply_sub_fixed l (snd pr) Hl').
    intros pr' d Hpr' Hd. exact (separated_letters pr pr' d Hpr Hpr' Hd).
  - apply IH. exact Hl'.
Qed.

Lemma apply_sub_map (l : list (Re.pattern * str)) (s : str) :
  incl l pats -> apply_patterns l s = flat_map (fold_char l) s.
Proof.
  intros Hl. induction s as [|c s IH]; [apply apply_sub_fixed; easy|].
  change (c :: s) with ([c] ++ s).
  rewrite apply_sub_app, apply_sub_char, IH by exact Hl. reflexivity.
Qed.

Lemma fold_char_same (l l' : list (Re.pattern * str)) (c : char) :
  incl l pats -> incl l' l -> incl l l' -> fold_char l c = fold_char l' c.
Proof.
  intros Hl H1 H2. unfold fold_char.
  destruct (find _ l) as [pr|] eqn:F; destruct (find _ l') as [pr'|] eqn:F'.
  - apply find_some in F. apply find_some in F'.
    destruct F as [I M]. destruct F' as [I' M'].
    apply (separated_coherent pr pr' c); auto.
  - apply find_some in F. destruct F as [I M].
    rewrite (find_none _ _ F' pr (H2 pr I)) in M. discriminate.
  - apply find_some in F'. destruct F' as [I' M'].
    rewrite (find_none _ _ F pr' (H1 pr' I')) in M'. discriminate.
  - reflexivity.
Qed.

Lemma separated_order (pats' : list (Re.pattern * str)) (s : str) :
  Permutation pats pats' -> apply_patterns pats' s = apply_patterns pats s.
Proof.
  intros HP.
  assert (H1 : incl pats' pats).
  { intros x Hx. apply (Permutation_in x (Permutation_sym HP)). exact Hx. }
  assert (H2 : incl pats pats').
  { intros x Hx. apply (Permutation_in x HP). exact Hx. }
  rewrite (apply_sub_map pats' s H1), (apply_sub_map pats s (incl_refl _)).
  apply flat_map_ext. intros c. symmetry.
  apply fold_char_same; [apply incl_refl | exact H1 | exact H2].
Qed.

End Separated.

(** The order of the entries of [accent_patterns] does not matter: the
    substitutions of any reordering of the table, applied in turn, give the
    same text. *)
Theorem accent_order_irrelevant (pats' : list (Re.pattern * str)) (s : str) :
  Permutation accent_patterns pats' ->
  apply_patterns pats' s = apply_patterns accent_patterns s.
Proof. apply separated_order. vm_compute. reflexivity. Qed.

Lemma accent_order_irrelevant_witness :
  apply_patterns (rev accent_patterns) (of_ascii "zo" ++ [0xE9])
  = apply_patterns accent_patterns (of_ascii "zo" ++ [0xE9]).
Proof.
  apply (accent_order_irrelevant (rev accent_patterns)).
  apply Permutation_rev.
Defined.
